(** * Game of Life canvas animation (src/scripts/gameOfLife.js)

    A shallow embedding of [startGameOfLife] and of the closures it
    installs, followed by the properties of the transition engine, the
    renderer, the drag controller and the frame loop.

    Conventions of the embedding.
    - JavaScript numbers that the program keeps integral (grid indices,
      [alive], [fade]) are [Z]. The numbers it receives (canvas size,
      [cellSize], pointer coordinates, frame time stamps) are taken to be
      integers too: pixels and time units.
    - The three places where the program computes with fractions
      ([Math.random() * 360], [Math.random() < 0.35] and
      [(x / canvas.width) * cols]) use a small model of binary64 round to
      nearest, ties to even, so that [Math.floor] sees the value the
      machine sees.
    - A thrown exception ([TypeError] on [undefined], [RangeError] of
      [new Array]) is [None].
    - [Math.random] is a stream [random : nat -> double]; the world
      carries the index of the next draw. *)

From stdpp Require Import base numbers list strings pretty gmap.
From Stdlib Require Import ZArith Lia Ascii.

Local Open Scope Z_scope.

(** ** Binary64 arithmetic on the values the program produces *)

(** A finite double, [dm * 2 ^ de]. *)
Record double := Dbl { dm : Z; de : Z }.

(** Nearest integer to [n / d] for [0 <= n], [0 < d], ties to even. *)
Definition rne (n d : Z) : Z :=
  let q := n / d in
  let r := n mod d in
  if 2 * r <? d then q
  else if d <? 2 * r then q + 1
  else if Z.even q then q else q + 1.

(** [floor (log2 (n / d))] for [0 < n], [0 < d]. *)
Definition ilog2q (n d : Z) : Z :=
  let p := Z.log2 n - Z.log2 d in
  let below := if 0 <=? p then n <? d * 2 ^ p else n * 2 ^ (- p) <? d in
  if below then p - 1 else p.

(** The double nearest to [(n / d) * 2 ^ k] for [0 < n], [0 < d]: 53
    significant bits, exponent never below that of the subnormals. *)
Definition round64 (n d k : Z) : double :=
  let p := ilog2q n d + k in
  let q := Z.max (p - 52) (-1074) in
  let s := k - q in
  Dbl (if 0 <=? s then rne (n * 2 ^ s) d else rne n (d * 2 ^ (- s))) q.

(** Rounding of a signed quotient. *)
Definition fl (n d k : Z) : double :=
  if n =? 0 then Dbl 0 0
  else if n <? 0 then let r := round64 (- n) d k in Dbl (- dm r) (de r)
  else round64 n d k.

Definition of_int (z : Z) : double := Dbl z 0.

(** [a * b] *)
Definition fmul (a b : double) : double :=
  fl (dm a * dm b) 1 (de a + de b).

(** [a / b] for integers with [0 < b]. *)
Definition fdiv_int (a b : Z) : double := fl a b 0.

(** [a < b] *)
Definition flt (a b : double) : bool :=
  let e := Z.min (de a) (de b) in
  dm a * 2 ^ (de a - e) <? dm b * 2 ^ (de b - e).

(** [Math.floor] *)
Definition Math_floor (a : double) : Z :=
  if 0 <=? de a then dm a * 2 ^ de a else dm a / 2 ^ (- de a).

(** The literal [0.35], that is 0x3FD6666666666666. *)
Definition lit_0_35 : double := Dbl 6305039478318694 (-54).

(** What [Math.random] may return: a double in [0, 1). *)
Definition unit_double (r : double) : bool :=
  (0 <=? dm r) && (dm r <? 2 ^ 53) &&
  (-1074 <=? de r) && (de r <? 0) && (dm r <? 2 ^ (- de r)).

(** ** Cells and grids *)

Record Cell := mkCell { alive : Z; color : string; fade : Z }.

Abbreviation Grid := (list (list Cell)).

(** [l[i]] for a number [i]; [None] is [undefined]. *)
Definition at_index {A} (l : list A) (i : Z) : option A :=
  if 0 <=? i then l !! Z.to_nat i else None.

(** [grid[col][row]]; reading a property of [undefined] throws. *)
Definition cellAt (grid : Grid) (col row : Z) : option Cell :=
  column ← at_index grid col; at_index column row.

(** [a % b] on integers; [% 0] is [NaN], which indexes nothing. *)
Definition js_rem (a b : Z) : option Z :=
  if b =? 0 then None else Some (Z.rem a b).

(** A [for] loop over the values of [l], threading the state [s]. *)
Fixpoint for_each {S A} (l : list A) (body : A → S → option S) (s : S)
  : option S :=
  match l with
  | [] => Some s
  | a :: l' => s' ← body a s; for_each l' body s'
  end.

(** [for (let x = 0; x < n; x++)] *)
Definition upto (n : Z) : list Z := seqZ 0 n.

(** ** countNeighbors *)

Definition countNeighbors (grid : Grid) (cols rows x y : Z) : option Z :=
  for_each [-1; 0; 1] (λ i,
    for_each [-1; 0; 1] (λ j sum,
      if (i =? 0) && (j =? 0) then Some sum
      else
        col ← js_rem (x + i + cols) cols;
        row ← js_rem (y + j + rows) rows;
        cell ← cellAt grid col row;
        Some (sum + alive cell))) 0.

(** ** getRandomColor *)

Definition hue_of (r : double) : Z := Math_floor (fmul r (of_int 360)).

Definition hsl (hue : Z) : string :=
  "hsl(" +:+ pretty hue +:+ ", 100%, 70%)".

Definition color_of (r : double) : string := hsl (hue_of r).

(** ** The closure state of startGameOfLife *)

Inductive DragAction := Add | Remove.

(** What the drawing context receives for one cell: a solid glyph in the
    cell's colour, or a faded one whose alpha is [fade / 10]. *)
Inductive Paint :=
  | LiveGlyph (x y : Z) (c : string)
  | FadeGlyph (x y : Z) (c : string) (f : Z).

Record World := mkWorld {
  cellSize : Z;
  canvasWidth : Z;
  canvasHeight : Z;
  cols : Z;
  rows : Z;
  grid : Grid;
  isDragging : bool;
  dragAction : option DragAction;
  touchedCells : gset string;
  lastUpdateTime : Z;
  draws : nat  (* how many values Math.random has returned so far *)
}.

Definition with_grid (g : Grid) (k : nat) (w : World) : World :=
  mkWorld (cellSize w) (canvasWidth w) (canvasHeight w) (cols w) (rows w) g
          (isDragging w) (dragAction w) (touchedCells w) (lastUpdateTime w) k.

Definition with_lastUpdateTime (t : Z) (w : World) : World :=
  mkWorld (cellSize w) (canvasWidth w) (canvasHeight w) (cols w) (rows w)
          (grid w) (isDragging w) (dragAction w) (touchedCells w) t (draws w).

Definition with_drag (d : bool) (a : option DragAction) (t : gset string)
    (w : World) : World :=
  mkWorld (cellSize w) (canvasWidth w) (canvasHeight w) (cols w) (rows w)
          (grid w) d a t (lastUpdateTime w) (draws w).

(** Assignments to one field of a cell. *)
Definition set_alive (a : Z) (c : Cell) : Cell := mkCell a (color c) (fade c).
Definition set_color (s : string) (c : Cell) : Cell := mkCell (alive c) s (fade c).
Definition set_fade (f : Z) (c : Cell) : Cell := mkCell (alive c) (color c) f.

(** [grid[col][row].field = ...]: the cell object is changed in place. *)
Definition update_cell (g : Grid) (col row : Z) (f : Cell → Cell)
  : option Grid :=
  column ← at_index g col;
  cell ← at_index column row;
  Some (<[Z.to_nat col := <[Z.to_nat row := f cell]> column]> g).

(** The two nested loops over the columns and the rows. *)
Definition for_cells {S} (cols rows : Z) (body : Z → Z → S → option S)
  : S → option S :=
  for_each (upto cols) (λ x, for_each (upto rows) (body x)).

(** Pointer position of a mouse or touch event, with the origin that
    [getBoundingClientRect] reports when the event is handled. *)
Record Pointer := mkPointer {
  clientX : Z; clientY : Z; rectLeft : Z; rectTop : Z
}.

(** [a / b]; [None] when the quotient is not finite. *)
Definition divide (a b : Z) : option double :=
  if b =? 0 then None
  else if b <? 0 then Some (fdiv_int (- a) (- b))
  else Some (fdiv_int a b).

(** [`${col},${row}`] *)
Definition cell_key (col row : Z) : string :=
  pretty col +:+ "," +:+ pretty row.

(** What a handler did that an observer can see. *)
Inductive Effect :=
  | Stepped                          (* updateGrid ran *)
  | Drawn (ps : list Paint)          (* drawGrid ran and painted [ps] *)
  | Edited (col row : Z) (a : DragAction).  (* toggleCell wrote a cell *)

Definition updateInterval : Z := 50.

Section Simulation.

(** The successive results of [Math.random()]. *)
Variable random : nat → double.

Definition getRandomColor (k : nat) : string := color_of (random k).

(** *** createGrid and resizeCanvas *)

(** [new Array(n).fill(null).map(f)] for a valid length [n]; [f] takes
    the position in the random stream and returns the next one. *)
Fixpoint build {A} (n : nat) (f : nat → A * nat) (k : nat) : list A * nat :=
  match n with
  | O => ([], k)
  | S n' => let '(a, k1) := f k in
            let '(l, k2) := build n' f k1 in (a :: l, k2)
  end.

Definition new_cell (k : nat) : Cell * nat :=
  (mkCell (if flt (random k) lit_0_35 then 1 else 0)
          (getRandomColor (S k)) 0, S (S k)).

(** [new Array] of a negative length is a RangeError; the inner arrays are
    only made when there is a column. (Lengths stay below 2^32 because
    canvas dimensions do.) *)
Definition createGrid (cols rows : Z) (k : nat) : option (Grid * nat) :=
  if cols <? 0 then None
  else if cols =? 0 then Some ([], k)
  else if rows <? 0 then None
  else Some (build (Z.to_nat cols) (build (Z.to_nat rows) new_cell) k).

Definition resizeCanvas (offsetWidth offsetHeight : Z) (w : World)
  : option World :=
  qc ← divide offsetWidth (cellSize w);
  qr ← divide offsetHeight (cellSize w);
  let cols := Math_floor qc in
  let rows := Math_floor qr in
  '(g, k) ← createGrid cols rows (draws w);
  Some (mkWorld (cellSize w) offsetWidth offsetHeight cols rows g
                (isDragging w) (dragAction w) (touchedCells w)
                (lastUpdateTime w) k).

(** *** drawGrid *)

Definition drawCell (x y : Z) (s : Grid * list Paint)
  : option (Grid * list Paint) :=
  let '(g, ps) := s in
  cell ← cellAt g x y;
  if negb (alive cell =? 0) then
    Some (g, ps ++ [LiveGlyph x y (color cell)])
  else if 0 <? fade cell then
    g' ← update_cell g x y (λ c, set_fade (fade c - 1) c);
    Some (g', ps ++ [FadeGlyph x y (color cell) (fade cell)])
  else Some (g, ps).

Definition drawGrid (w : World) : option (World * list Paint) :=
  '(g, ps) ← for_cells (cols w) (rows w) drawCell (grid w, []);
  Some (with_grid g (draws w) w, ps).

(** *** updateGrid *)

(** One iteration of the loop body: [g] is the current grid, the state is
    the clone [next] and the position in the random stream. *)
Definition updateCell (g : Grid) (cols rows : Z) (x y : Z) (s : Grid * nat)
  : option (Grid * nat) :=
  let '(next, k) := s in
  neighbors ← countNeighbors g cols rows x y;
  cell ← cellAt g x y;
  if alive cell =? 1 then
    if (neighbors <? 2) || (3 <? neighbors) then
      next' ← update_cell next x y (set_fade 10 ∘ set_alive 0);
      Some (next', k)
    else Some (next, k)
  else
    if neighbors =? 3 then
      next' ← update_cell next x y
                (set_fade 0 ∘ set_color (getRandomColor k) ∘ set_alive 1);
      Some (next', S k)
    else Some (next, k).

Definition updateGrid (w : World) : option World :=
  let next := grid w in  (* the deep clone: same values, fresh objects *)
  '(next', k) ← for_cells (cols w) (rows w)
                  (updateCell (grid w) (cols w) (rows w)) (next, draws w);
  Some (with_grid next' k w).

(** *** toggleCell *)

(** [Math.floor((x / size) * n)]; [None] when the value is not finite, in
    which case every comparison of the bounds check is false. *)
Definition pixel_to_index (x size n : Z) : option Z :=
  if size <=? 0 then None
  else Some (Math_floor (fmul (fdiv_int x size) (of_int n))).

(** The cell under the pointer, as toggleCell computes it. *)
Definition pointed_cell (w : World) (p : Pointer) : option (Z * Z) :=
  col ← pixel_to_index (clientX p - rectLeft p) (canvasWidth w) (cols w);
  row ← pixel_to_index (clientY p - rectTop p) (canvasHeight w) (rows w);
  Some (col, row).

(** The cell the guard of toggleCell lets through, if any. *)
Definition toggle_target (w : World) (p : Pointer) : option (Z * Z) :=
  '(col, row) ← pointed_cell w p;
  if (0 <=? col) && (col <? cols w) && (0 <=? row) && (row <? rows w)
     && negb (bool_decide (cell_key col row ∈ touchedCells w))
  then Some (col, row) else None.

Definition toggleCell (p : Pointer) (w : World) : option (World * list Effect) :=
  match toggle_target w p with
  | None => Some (w, [])
  | Some (col, row) =>
      let touched := {[cell_key col row]} ∪ touchedCells w in
      action ← match dragAction w with
               | Some a => Some a
               | None => cell ← cellAt (grid w) col row;
                         Some (if negb (alive cell =? 0) then Remove else Add)
               end;
      '(g, k) ← match action with
                | Add =>
                    g ← update_cell (grid w) col row
                          (set_fade 0 ∘ set_color (getRandomColor (draws w))
                                      ∘ set_alive 1);
                    Some (g, S (draws w))
                | Remove =>
                    g ← update_cell (grid w) col row (set_fade 10 ∘ set_alive 0);
                    Some (g, draws w)
                end;
      Some (with_grid g k (with_drag (isDragging w) (Some action) touched w),
            [Edited col row action])
  end.

(** The action toggleCell applies at a cell holding [c], and the cell it
    leaves there. *)
Definition stroke_action (w : World) (c : Cell) : DragAction :=
  match dragAction w with
  | Some a => a
  | None => if negb (alive c =? 0) then Remove else Add
  end.

Definition stroke_cell (w : World) (a : DragAction) (c : Cell) : Cell :=
  match a with
  | Add => mkCell 1 (getRandomColor (draws w)) 0
  | Remove => mkCell 0 (color c) 10
  end.

(** *** gameLoop *)

Definition gameLoop (timestamp : Z) (w : World) : option (World * list Effect) :=
  let w1 := if lastUpdateTime w =? 0 then with_lastUpdateTime timestamp w else w in
  let elapsed := timestamp - lastUpdateTime w1 in
  '(w2, e) ← (if updateInterval <=? elapsed
              then w' ← updateGrid w1;
                   Some (with_lastUpdateTime timestamp w', [Stepped])
              else Some (w1, []));
  '(w3, ps) ← drawGrid w2;
  Some (w3, e ++ [Drawn ps]).

(** *** The listeners *)

Inductive Event :=
  | Frame (timestamp : Z)
  | MouseDown (p : Pointer)
  | MouseMove (p : Pointer)
  | MouseUp
  | TouchStart (p : Pointer)
  | TouchMove (p : Pointer)
  | TouchEnd
  | Resize (offsetWidth offsetHeight : Z).

Definition gestureStart (p : Pointer) (w : World) : option (World * list Effect) :=
  toggleCell p (with_drag true (dragAction w) ∅ w).

Definition gestureMove (p : Pointer) (w : World) : option (World * list Effect) :=
  if isDragging w then toggleCell p w else Some (w, []).

Definition gestureEnd (w : World) : option (World * list Effect) :=
  Some (with_drag false None ∅ w, []).

Definition handle (e : Event) (w : World) : option (World * list Effect) :=
  match e with
  | Frame t => gameLoop t w
  | MouseDown p | TouchStart p => gestureStart p w
  | MouseMove p | TouchMove p => gestureMove p w
  | MouseUp | TouchEnd => gestureEnd w
  | Resize ow oh => w' ← resizeCanvas ow oh w; Some (w', [])
  end.

(** Running the listeners on a sequence of events, collecting the effects. *)
Fixpoint run (es : list Event) (w : World) : option (World * list Effect) :=
  match es with
  | [] => Some (w, [])
  | e :: es' =>
      '(w1, t1) ← handle e w;
      '(w2, t2) ← run es' w1;
      Some (w2, t1 ++ t2)
  end.

(** The frame callback on successive time stamps, with what each frame did. *)
Fixpoint run_frames (ts : list Z) (w : World)
  : option (World * list (Z * list Effect)) :=
  match ts with
  | [] => Some (w, [])
  | t :: ts' =>
      '(w1, es) ← gameLoop t w;
      '(w2, log) ← run_frames ts' w1;
      Some (w2, (t, es) :: log)
  end.

(** *** startGameOfLife *)

(** The [cellSize] entry of the options object: missing, or an integer. *)
Inductive CellSizeOption := Absent | Given (z : Z).

(** [options.cellSize || 10] *)
Definition effective_cellSize (o : CellSizeOption) : Z :=
  match o with
  | Absent => 10
  | Given z => if z =? 0 then 10 else z
  end.

Definition startGameOfLife (offsetWidth offsetHeight : Z) (o : CellSizeOption)
  : option World :=
  resizeCanvas offsetWidth offsetHeight
    (mkWorld (effective_cellSize o) 0 0 0 0 [] false None ∅ 0 0).

End Simulation.

(** ** Observations on traces *)

(** The cells written by toggleCell, in order. *)
Definition edited_cells (es : list Effect) : list (Z * Z) :=
  es ≫= λ e, match e with Edited col row _ => [(col, row)] | _ => [] end.

(** What the pixel-to-cell mapping of toggleCell depends on. *)
Definition view (w : World) : Z * Z * Z * Z :=
  (canvasWidth w, canvasHeight w, cols w, rows w).



Fixpoint has_comma (s : string) : bool :=
  match s with
  | EmptyString => false
  | String a s' => bool_decide (a = ","%char) || has_comma s'
  end.

(** ** Well-formed grids *)

(** The grid is a [cols] by [rows] matrix, as [createGrid] builds it. *)
Definition wf_grid (g : Grid) (cols rows : Z) : bool :=
  (0 <=? cols) && (0 <=? rows) && (Z.of_nat (length g) =? cols)
  && forallb (λ column, Z.of_nat (length column) =? rows) g.

Definition wf_world (w : World) : bool := wf_grid (grid w) (cols w) (rows w).

(** ** The neighbourhood as the specification words it *)

Definition neighbor_offsets : list (Z * Z) :=
  [(-1, -1); (-1, 0); (-1, 1); (0, -1); (0, 1); (1, -1); (1, 0); (1, 1)].

Definition wrap (cols rows x y : Z) (o : Z * Z) : Z * Z :=
  ((x + o.1) `mod` cols, (y + o.2) `mod` rows).

Definition toroidal_neighbors (cols rows x y : Z) : list (Z * Z) :=
  wrap cols rows x y <$> neighbor_offsets.

Definition alive_at (g : Grid) (p : Z * Z) : Z :=
  default 0 (alive <$> cellAt g p.1 p.2).

Definition alive_sum (g : Grid) (ps : list (Z * Z)) : Z :=
  foldr (λ p s, alive_at g p + s) 0 ps.

(** The cells the two nested loops visit, in the order they visit them. *)
Definition positions (cols rows : Z) : list (Z * Z) :=
  x ← upto cols; (λ y, (x, y)) <$> upto rows.


(** ** What one loop iteration does to its cell *)

(** updateGrid at a cell whose current value is [c0], with [n] live
    neighbours, when the clone holds [c] and the next colour is [fresh]:
    the new value in the clone and the number of colours drawn. *)
Definition next_cell (c0 : Cell) (n : Z) (fresh : string) (c : Cell) : Cell * nat :=
  if alive c0 =? 1 then
    if (n <? 2) || (3 <? n) then (set_fade 10 (set_alive 0 c), 0%nat) else (c, 0%nat)
  else
    if n =? 3 then (set_fade 0 (set_color fresh (set_alive 1 c)), 1%nat)
    else (c, 0%nat).

(** drawGrid at a cell. *)
Definition decayed (c : Cell) : Cell :=
  if negb (alive c =? 0) then c
  else if 0 <? fade c then set_fade (fade c - 1) c else c.

(** [n] consecutive render passes. *)
Fixpoint draw_passes (n : nat) (w : World) : option World :=
  match n with
  | O => Some w
  | S n' => '(w', _) ← drawGrid w; draw_passes n' w'
  end.

(** ** Sample inputs *)

(** A random stream alternating between 0.25 and 0.75. *)
Definition sample_random (k : nat) : double :=
  if Nat.even k then Dbl 1 (-2) else Dbl 3 (-2).

Definition live_cell : Cell := mkCell 1 "hsl(120, 100%, 70%)" 0.
Definition dead_cell : Cell := mkCell 0 "hsl(200, 100%, 70%)" 0.
Definition fading_cell : Cell := mkCell 0 "hsl(30, 100%, 70%)" 5.

(** A 4 by 4 grid, [sample_grid[x][y]]: a lone live cell at (0, 0), three
    live cells at (1, 1), (1, 2), (2, 1) and a fading cell at (3, 3). *)
Definition sample_grid : Grid :=
  [ [live_cell; dead_cell; dead_cell; dead_cell];
    [dead_cell; live_cell; live_cell; dead_cell];
    [dead_cell; live_cell; dead_cell; dead_cell];
    [dead_cell; dead_cell; dead_cell; fading_cell] ].

Definition sample_world : World :=
  mkWorld 10 40 40 4 4 sample_grid false None ∅ 0 0.

(** A pointer over the canvas at the given pixel. *)
Definition pointer_at (x y : Z) : Pointer := mkPointer x y 0 0.

Definition is_step (e : Effect) : bool :=
  match e with Stepped => true | _ => false end.

(** For each frame of a log, whether the transition ran in it. *)
Definition step_flags (log : list (Z * list Effect)) : list (Z * bool) :=
  (λ te, (te.1, existsb is_step te.2)) <$> log.

(** ** Cell invariants and admissible events *)

(** What every cell the program makes satisfies: [alive] is 0 or 1, the
    fade is between 0 and 10, and a live cell has no fade. *)
Definition cell_ok (c : Cell) : bool :=
  ((alive c =? 0) || (alive c =? 1))
  && (0 <=? fade c) && (fade c <=? 10)
  && ((alive c =? 0) || (fade c =? 0)).

Definition grid_ok (g : Grid) : bool := forallb (forallb cell_ok) g.

(** A resize reports a canvas size that is an unsigned 32-bit number. *)
Definition event_ok (e : Event) : bool :=
  match e with
  | Resize ow oh => (0 <=? ow) && (ow <? 2 ^ 32) && (0 <=? oh) && (oh <? 2 ^ 32)
  | _ => true
  end.

(** The state in which the handlers are called: a well-formed grid of
    well-formed cells and a positive cell size of ordinary magnitude. *)
Definition steady (w : World) : Prop :=
  wf_world w = true ∧ grid_ok (grid w) = true ∧ 0 < cellSize w ≤ 2 ^ 20.

(** ** Births of one transition *)

(** Whether updateGrid takes the birth branch at [p]. *)
Definition born (g : Grid) (cols rows : Z) (p : Z * Z) : bool :=
  match cellAt g p.1 p.2, countNeighbors g cols rows p.1 p.2 with
  | Some c, Some n => negb (alive c =? 1) && (n =? 3)
  | _, _ => false
  end.

(** The number of births among the positions [ps]. *)
Definition births (g : Grid) (cols rows : Z) (ps : list (Z * Z)) : nat :=
  foldr (λ p n, if born g cols rows p then S n else n) 0%nat ps.

(** ** What a render pass shows *)

(** The glyph drawGrid paints for the cell at [p] of the grid [g], if it
    paints one. *)
Definition glyph_of (g : Grid) (p : Z * Z) : option Paint :=
  cell ← cellAt g p.1 p.2;
  if negb (alive cell =? 0) then Some (LiveGlyph p.1 p.2 (color cell))
  else if 0 <? fade cell then Some (FadeGlyph p.1 p.2 (color cell) (fade cell))
  else None.

(** ** Strokes *)



Definition is_press (e : Event) : bool :=
  match e with MouseDown _ | TouchStart _ => true | _ => false end.

(** ** More sample inputs *)

(** A world without cells. *)
Definition empty_world : World := mkWorld 10 5 5 0 0 [] false None ∅ 0 0.


(** A session: a frame, a press, a move, a resize, frames and a release. *)
Definition sample_events : list Event :=
  [Frame 16; MouseDown (pointer_at 15 15); MouseMove (pointer_at 25 15);
   Resize 30 20; Frame 80; MouseUp; Frame 140].

Definition sample_start : World :=
  default sample_world (startGameOfLife sample_random 40 40 Absent).

Definition sample_end : World * list Effect :=
  default (sample_world, []) (run sample_random sample_events sample_start).

(** Moves, a frame and a release without a press. *)
Definition idle_events : list Event :=
  [MouseMove (pointer_at 15 15); Frame 16; TouchMove (pointer_at 5 5); MouseUp].

Definition idle_end : World * list Effect :=
  default (sample_world, []) (run sample_random idle_events sample_world).

(** The world after a press on the cell (1, 1), and after a resize then. *)
Definition pressed_world : World :=
  default sample_world
    (fst <$> handle sample_random (MouseDown (pointer_at 15 15)) sample_world).

Definition resized_world : World :=
  default sample_world
    (fst <$> handle sample_random (Resize 40 40) pressed_world).


(** ** Grid access lemmas *)

Lemma wf_grid_inv g cols rows :
  wf_grid g cols rows = true →
  0 ≤ cols ∧ 0 ≤ rows ∧ Z.of_nat (length g) = cols ∧
  ∀ column, column ∈ g → Z.of_nat (length column) = rows.
Proof.
  unfold wf_grid. rewrite !andb_true_iff, forallb_forall.
  intros [[[H1 H2] H3] H4]. repeat split; try lia.
  intros column Hin. apply list_elem_of_In in Hin.
  specialize (H4 _ Hin). simpl in H4. lia.
Qed.

Lemma at_index_Some {A} (l : list A) (i : Z) :
  0 ≤ i < Z.of_nat (length l) → ∃ a, at_index l i = Some a ∧ a ∈ l.
Proof.
  intros Hi. unfold at_index.
  destruct (Z.leb_spec 0 i); [|lia].
  destruct (lookup_lt_is_Some_2 l (Z.to_nat i)) as [a Ha]; [lia|].
  exists a. split; [done|]. by eapply list_elem_of_lookup_2.
Qed.

Lemma cellAt_Some g cols rows x y :
  wf_grid g cols rows = true → 0 ≤ x < cols → 0 ≤ y < rows →
  ∃ c, cellAt g x y = Some c.
Proof.
  intros Hwf Hx Hy. apply wf_grid_inv in Hwf as (_ & _ & Hlen & Hcol).
  destruct (at_index_Some g x) as (column & Hc & Hin); [lia|].
  destruct (at_index_Some column y) as (c & Hcell & _).
  { rewrite (Hcol _ Hin). lia. }
  exists c. unfold cellAt. rewrite Hc. simpl. done.
Qed.

Lemma js_rem_wrap a d n :
  0 < n → 0 ≤ a < n → -1 ≤ d ≤ 1 →
  js_rem (a + d + n) n = Some ((a + d) `mod` n).
Proof.
  intros Hn Ha Hd. unfold js_rem.
  destruct (Z.eqb_spec n 0); [lia|]. f_equal.
  rewrite Z.rem_mod_nonneg by lia.
  rewrite <- (Z.mul_1_l n) at 1. by rewrite Z_mod_plus_full.
Qed.

Lemma alive_at_Some g x y c :
  cellAt g x y = Some c → alive_at g (x, y) = alive c.
Proof. unfold alive_at. simpl. by intros ->. Qed.

(** The eight reads of countNeighbors, one by one. *)
Lemma countNeighbors_sum g cols rows x y :
  wf_grid g cols rows = true → 0 ≤ x < cols → 0 ≤ y < rows →
  countNeighbors g cols rows x y
  = Some (alive_sum g (toroidal_neighbors cols rows x y)).
Proof.
  intros Hwf Hx Hy.
  assert (Hcell : ∀ i j, -1 ≤ i ≤ 1 → -1 ≤ j ≤ 1 →
            ∃ c, cellAt g ((x + i) `mod` cols) ((y + j) `mod` rows) = Some c).
  { intros i j Hi Hj. eapply cellAt_Some; [done|..];
      apply Z.mod_pos_bound; lia. }
  unfold countNeighbors, toroidal_neighbors, alive_sum, neighbor_offsets, wrap.
  cbn [for_each fmap list_fmap foldr fst snd Z.eqb andb].
  rewrite !(js_rem_wrap x) by lia. rewrite !(js_rem_wrap y) by lia.
  cbn [mbind option_bind].
  destruct (Hcell (-1) (-1)) as [c1 E1]; [lia..|].
  destruct (Hcell (-1) 0) as [c2 E2]; [lia..|].
  destruct (Hcell (-1) 1) as [c3 E3]; [lia..|].
  destruct (Hcell 0 (-1)) as [c4 E4]; [lia..|].
  destruct (Hcell 0 1) as [c5 E5]; [lia..|].
  destruct (Hcell 1 (-1)) as [c6 E6]; [lia..|].
  destruct (Hcell 1 0) as [c7 E7]; [lia..|].
  destruct (Hcell 1 1) as [c8 E8]; [lia..|].
  rewrite E1, E2, E3, E4, E5, E6, E7, E8.
  rewrite (alive_at_Some _ _ _ _ E1), (alive_at_Some _ _ _ _ E2),
    (alive_at_Some _ _ _ _ E3), (alive_at_Some _ _ _ _ E4),
    (alive_at_Some _ _ _ _ E5), (alive_at_Some _ _ _ _ E6),
    (alive_at_Some _ _ _ _ E7), (alive_at_Some _ _ _ _ E8).
  cbn [mbind option_bind]. f_equal. lia.
Qed.

Lemma wf_grid_intro g cols rows :
  0 ≤ rows → Z.of_nat (length g) = cols →
  (∀ column, column ∈ g → Z.of_nat (length column) = rows) →
  wf_grid g cols rows = true.
Proof.
  intros Hr Hlen Hcol. unfold wf_grid.
  rewrite !andb_true_iff, forallb_forall. repeat split; try lia.
  intros column Hin. apply list_elem_of_In in Hin.
  specialize (Hcol _ Hin). simpl. lia.
Qed.

Lemma update_cell_spec g cols rows x y f c :
  wf_grid g cols rows = true → cellAt g x y = Some c →
  ∃ g', update_cell g x y f = Some g'
        ∧ wf_grid g' cols rows = true
        ∧ cellAt g' x y = Some (f c)
        ∧ ∀ x' y', (x', y') ≠ (x, y) → cellAt g' x' y' = cellAt g x' y'.
Proof.
  intros Hwf Hc. apply wf_grid_inv in Hwf as (Hcols & Hrows & Hlen & Hcol).
  unfold cellAt in Hc. destruct (at_index g x) as [column|] eqn:Hx; [|done].
  simpl in Hc. unfold update_cell. rewrite Hx. simpl. rewrite Hc. simpl.
  eexists. split; [done|].
  unfold at_index in Hx, Hc.
  destruct (Z.leb_spec 0 x); [|done]. destruct (Z.leb_spec 0 y); [|done].
  pose proof (lookup_lt_Some _ _ _ Hx) as Hxlt.
  pose proof (lookup_lt_Some _ _ _ Hc) as Hylt.
  assert (Hcollen : Z.of_nat (length column) = rows).
  { apply Hcol. by eapply list_elem_of_lookup_2. }
  split; [|split].
  - apply wf_grid_intro; [done|by rewrite length_insert|].
    intros col' Hin. apply list_elem_of_lookup in Hin as [i Hi].
    destruct (decide (i = Z.to_nat x)) as [->|Hne].
    + rewrite list_lookup_insert_eq in Hi by done.
      simplify_eq. by rewrite length_insert.
    + rewrite list_lookup_insert_ne in Hi by done.
      apply Hcol. by eapply list_elem_of_lookup_2.
  - unfold cellAt, at_index.
    destruct (Z.leb_spec 0 x); [|lia]. destruct (Z.leb_spec 0 y); [|lia].
    rewrite list_lookup_insert_eq by done. simpl.
    by rewrite list_lookup_insert_eq.
  - intros x' y' Hne. unfold cellAt, at_index.
    destruct (Z.leb_spec 0 x'); [|done].
    destruct (decide (x' = x)) as [->|Hx'].
    + rewrite list_lookup_insert_eq by done. rewrite Hx. simpl.
      destruct (Z.leb_spec 0 y'); [|done].
      rewrite list_lookup_insert_ne; [done|]. intros E. apply Hne.
      f_equal. lia.
    + rewrite list_lookup_insert_ne; [done|]. lia.
Qed.

(** ** Loops *)

Lemma for_each_app {S A} (l1 l2 : list A) (body : A → S → option S) s :
  for_each (l1 ++ l2) body s = s' ← for_each l1 body s; for_each l2 body s'.
Proof.
  revert s. induction l1 as [|a l1 IH]; intros s; simpl; [done|].
  destruct (body a s) as [s1|]; simpl; [apply IH|done].
Qed.

Lemma for_each_fmap {S A B} (f : A → B) (l : list A) (body : B → S → option S) s :
  for_each (f <$> l) body s = for_each l (λ a, body (f a)) s.
Proof.
  revert s. induction l as [|a l IH]; intros s; simpl; [done|].
  destruct (body (f a) s) as [s1|]; simpl; [apply IH|done].
Qed.

(** The nested loops visit [positions cols rows] in order. *)
Lemma for_cells_flat {S} cols rows (body : Z → Z → S → option S) s :
  for_cells cols rows body s
  = for_each (positions cols rows) (λ p, body p.1 p.2) s.
Proof.
  unfold for_cells, positions. generalize (upto cols) as xs.
  intros xs. revert s. induction xs as [|x xs IH]; intros s; [done|].
  rewrite bind_cons, for_each_app, for_each_fmap. simpl.
  destruct (for_each (upto rows) (body x) s) as [s1|]; simpl; [apply IH|done].
Qed.

Lemma elem_of_positions cols rows x y :
  (x, y) ∈ positions cols rows ↔ 0 ≤ x < cols ∧ 0 ≤ y < rows.
Proof.
  unfold positions, upto. rewrite list_elem_of_bind. split.
  - intros (x' & Hy & Hx). apply list_elem_of_fmap in Hy as (y' & [= -> ->] & Hy).
    apply elem_of_seqZ in Hx, Hy. lia.
  - intros [Hx Hy]. exists x. split.
    + apply list_elem_of_fmap. exists y. split; [done|]. apply elem_of_seqZ. lia.
    + apply elem_of_seqZ. lia.
Qed.

Lemma NoDup_positions cols rows : NoDup (positions cols rows).
Proof.
  unfold positions, upto. apply NoDup_bind.
  - intros x1 x2 p _ _ H1 H2.
    apply list_elem_of_fmap in H1 as (y1 & -> & _).
    apply list_elem_of_fmap in H2 as (y2 & [= -> _] & _). done.
  - intros x _. apply NoDup_fmap_2; [|apply NoDup_seqZ].
    intros y1 y2 [= ->]. done.
  - apply NoDup_seqZ.
Qed.

(** A loop body that reads and writes only the cell it is called on: the
    loop then changes each cell once, by the body's relation [Q], and the
    side state [E] (random position, paint list) only moves forward. *)
Section CellLoop.
Context {E : Type} (cols rows : Z).
Variable body : Z → Z → Grid * E → option (Grid * E).
Variable ext : E → E → Prop.
Variable Q : Z → Z → Cell → E → Cell → E → Prop.
Hypothesis ext_refl : ∀ e, ext e e.
Hypothesis ext_trans : ∀ e1 e2 e3, ext e1 e2 → ext e2 e3 → ext e1 e3.
Hypothesis body_local : ∀ g e x y c,
  wf_grid g cols rows = true → 0 ≤ x < cols → 0 ≤ y < rows →
  cellAt g x y = Some c →
  ∃ g' e' c', body x y (g, e) = Some (g', e')
    ∧ wf_grid g' cols rows = true
    ∧ cellAt g' x y = Some c'
    ∧ (∀ x' y', (x', y') ≠ (x, y) → cellAt g' x' y' = cellAt g x' y')
    ∧ Q x y c e c' e' ∧ ext e e'.

Lemma for_each_cells ps g e :
  NoDup ps → (∀ x y, (x, y) ∈ ps → 0 ≤ x < cols ∧ 0 ≤ y < rows) →
  wf_grid g cols rows = true →
  ∃ g' e', for_each ps (λ p, body p.1 p.2) (g, e) = Some (g', e')
    ∧ wf_grid g' cols rows = true ∧ ext e e'
    ∧ (∀ x y, (x, y) ∉ ps → cellAt g' x y = cellAt g x y)
    ∧ (∀ x y c, (x, y) ∈ ps → cellAt g x y = Some c →
         ∃ c' e1 e2, cellAt g' x y = Some c' ∧ Q x y c e1 c' e2
                     ∧ ext e e1 ∧ ext e2 e').
Proof.
  intros Hnd. revert g e.
  induction Hnd as [|[x0 y0] ps Hnotin Hnd IH]; intros g e Hin Hwf.
  { exists g, e. repeat split; auto. intros x y c Hp. by apply elem_of_nil in Hp. }
  destruct (Hin x0 y0) as [Hx0 Hy0]; [left|].
  destruct (cellAt_Some g cols rows x0 y0 Hwf Hx0 Hy0) as [c0 Hc0].
  destruct (body_local g e x0 y0 c0 Hwf Hx0 Hy0 Hc0)
    as (g1 & e1 & c1 & Hbody & Hwf1 & Hc1 & Hother & HQ & Hext).
  destruct (IH g1 e1) as (g' & e' & Hloop & Hwf' & Hext' & Hout & Hcells);
    [intros; apply Hin; by right|done|].
  exists g', e'. simpl. rewrite Hbody. simpl. split; [done|].
  split; [done|]. split; [by eapply ext_trans|]. split.
  - intros x y Hp. rewrite Hout by (intros ?; apply Hp; by right).
    apply Hother. intros [= -> ->]. apply Hp. left.
  - intros x y c Hp Hc. apply elem_of_cons in Hp as [[= -> ->]|Hp].
    + exists c1, e, e1. rewrite Hout by done.
      rewrite Hc0 in Hc. injection Hc as <-. auto.
    + assert ((x, y) ≠ (x0, y0)) as Hne by (intros [= -> ->]; done).
      destruct (Hcells x y c Hp) as (c' & ea & eb & ? & ? & ? & ?).
      { by rewrite Hother. }
      exists c', ea, eb. repeat split; [done..|by eapply ext_trans|done].
Qed.

Lemma for_cells_spec g e :
  wf_grid g cols rows = true →
  ∃ g' e', for_cells cols rows body (g, e) = Some (g', e')
    ∧ wf_grid g' cols rows = true ∧ ext e e'
    ∧ (∀ x y c, 0 ≤ x < cols → 0 ≤ y < rows → cellAt g x y = Some c →
         ∃ c' e1 e2, cellAt g' x y = Some c' ∧ Q x y c e1 c' e2
                     ∧ ext e e1 ∧ ext e2 e').
Proof.
  intros Hwf.
  destruct (for_each_cells (positions cols rows) g e)
    as (g' & e' & Hloop & Hwf' & Hext & _ & Hcells);
    [apply NoDup_positions|by intros x y ?%elem_of_positions|done|].
  exists g', e'. rewrite for_cells_flat. repeat split; [done..|].
  intros x y c Hx Hy. apply Hcells. by apply elem_of_positions.
Qed.
End CellLoop.

(** ** drawGrid, cell by cell *)

Lemma drawCell_local cols rows g ps x y c :
  wf_grid g cols rows = true → 0 ≤ x < cols → 0 ≤ y < rows →
  cellAt g x y = Some c →
  ∃ g' ps' c', drawCell x y (g, ps) = Some (g', ps')
    ∧ wf_grid g' cols rows = true
    ∧ cellAt g' x y = Some c'
    ∧ (∀ x' y', (x', y') ≠ (x, y) → cellAt g' x' y' = cellAt g x' y')
    ∧ c' = decayed c ∧ True.
Proof.
  intros Hwf Hx Hy Hc. unfold drawCell, decayed. rewrite Hc. simpl.
  destruct (alive c =? 0); simpl.
  - destruct (0 <? fade c).
    + destruct (update_cell_spec g cols rows x y
                  (λ c, set_fade (fade c - 1) c) c Hwf Hc)
        as (g' & Hup & Hwf' & Hc' & Hother).
      rewrite Hup. simpl. eauto 10.
    + eauto 10.
  - eauto 10.
Qed.

Lemma drawGrid_spec w :
  wf_world w = true →
  ∃ w' ps, drawGrid w = Some (w', ps)
    ∧ wf_world w' = true
    ∧ cols w' = cols w ∧ rows w' = rows w
    ∧ ∀ x y c, 0 ≤ x < cols w → 0 ≤ y < rows w →
        cellAt (grid w) x y = Some c →
        cellAt (grid w') x y = Some (decayed c).
Proof.
  intros Hwf. unfold wf_world in Hwf.
  destruct (for_cells_spec (cols w) (rows w) drawCell (λ _ _, True)
              (λ _ _ c _ c' _, c' = decayed c)
              ltac:(done) ltac:(done)
              (λ g e x y c, drawCell_local (cols w) (rows w) g e x y c)
              (grid w) [] Hwf)
    as (g' & ps & Hloop & Hwf' & _ & Hcells).
  unfold drawGrid. rewrite Hloop. simpl.
  eexists _, _. split; [done|]. repeat split; [done|].
  simpl. intros x y c Hx Hy Hc.
  destruct (Hcells x y c Hx Hy Hc) as (c' & _ & _ & Hc' & -> & _). done.
Qed.

(** ** updateGrid, cell by cell *)

Section Transition.
Variable random : nat → double.

Lemma updateCell_at g0 cols rows next k x y c c0 n :
  wf_grid next cols rows = true →
  cellAt next x y = Some c →
  cellAt g0 x y = Some c0 →
  countNeighbors g0 cols rows x y = Some n →
  ∃ next', updateCell random g0 cols rows x y (next, k)
           = Some (next', (k + (next_cell c0 n (getRandomColor random k) c).2)%nat)
    ∧ wf_grid next' cols rows = true
    ∧ cellAt next' x y = Some (next_cell c0 n (getRandomColor random k) c).1
    ∧ (∀ x' y', (x', y') ≠ (x, y) → cellAt next' x' y' = cellAt next x' y').
Proof.
  intros Hwf Hc Hc0 Hn. unfold updateCell, next_cell.
  rewrite Hn, Hc0. simpl.
  destruct (alive c0 =? 1).
  - destruct ((n <? 2) || (3 <? n)); simpl.
    + destruct (update_cell_spec next cols rows x y
                  (set_fade 10 ∘ set_alive 0) c Hwf Hc)
        as (g' & -> & Hwf' & Hc' & Hother).
      simpl. rewrite Nat.add_0_r. eauto.
    + rewrite Nat.add_0_r. eauto.
  - destruct (n =? 3); simpl.
    + destruct (update_cell_spec next cols rows x y
                  (set_fade 0 ∘ set_color (getRandomColor random k) ∘ set_alive 1)
                  c Hwf Hc)
        as (g' & -> & Hwf' & Hc' & Hother).
      simpl. rewrite Nat.add_1_r. eauto.
    + rewrite Nat.add_0_r. eauto.
Qed.

Lemma updateCell_local g0 cols rows next k x y c :
  wf_grid g0 cols rows = true →
  wf_grid next cols rows = true → 0 ≤ x < cols → 0 ≤ y < rows →
  cellAt next x y = Some c →
  ∃ next' k' c', updateCell random g0 cols rows x y (next, k) = Some (next', k')
    ∧ wf_grid next' cols rows = true
    ∧ cellAt next' x y = Some c'
    ∧ (∀ x' y', (x', y') ≠ (x, y) → cellAt next' x' y' = cellAt next x' y')
    ∧ (∀ c0 n, cellAt g0 x y = Some c0 →
         countNeighbors g0 cols rows x y = Some n →
         c' = (next_cell c0 n (getRandomColor random k) c).1
         ∧ k' = (k + (next_cell c0 n (getRandomColor random k) c).2)%nat)
    ∧ (k ≤ k')%nat.
Proof.
  intros Hwf0 Hwf Hx Hy Hc.
  pose proof (countNeighbors_sum g0 cols rows x y Hwf0 Hx Hy) as Hn.
  destruct (cellAt_Some g0 cols rows x y Hwf0 Hx Hy) as [c0 Hc0].
  destruct (updateCell_at g0 cols rows next k x y c c0 _ Hwf Hc Hc0 Hn)
    as (next' & Hbody & Hwf' & Hc' & Hother).
  eexists _, _, _. split; [exact Hbody|]. repeat (split; [done|]).
  split; [|lia]. intros c1 n1 H1 H2. by simplify_eq.
Qed.

(** updateGrid returns, and each cell of its result is [next_cell] of the
    current cell, its neighbour count and one value of the random
    stream that this call consumed. *)
Lemma updateGrid_spec w :
  wf_world w = true →
  ∃ w', updateGrid random w = Some w'
    ∧ wf_world w' = true
    ∧ cols w' = cols w ∧ rows w' = rows w
    ∧ (draws w ≤ draws w')%nat
    ∧ ∀ x y c n, 0 ≤ x < cols w → 0 ≤ y < rows w →
        cellAt (grid w) x y = Some c →
        countNeighbors (grid w) (cols w) (rows w) x y = Some n →
        ∃ k, (draws w ≤ k)%nat
          ∧ (k + (next_cell c n (getRandomColor random k) c).2 ≤ draws w')%nat
          ∧ cellAt (grid w') x y
            = Some (next_cell c n (getRandomColor random k) c).1.
Proof.
  intros Hwf. unfold wf_world in Hwf.
  destruct (for_cells_spec (cols w) (rows w)
              (updateCell random (grid w) (cols w) (rows w)) le
              (λ x y c k c' k', ∀ c0 n,
                 cellAt (grid w) x y = Some c0 →
                 countNeighbors (grid w) (cols w) (rows w) x y = Some n →
                 c' = (next_cell c0 n (getRandomColor random k) c).1
                 ∧ k' = (k + (next_cell c0 n (getRandomColor random k) c).2)%nat)
              ltac:(auto) ltac:(intros; lia)
              (λ g e x y c H1 H2 H3 H4,
                 updateCell_local (grid w) (cols w) (rows w) g e x y c
                   Hwf H1 H2 H3 H4)
              (grid w) (draws w) Hwf)
    as (g' & k' & Hloop & Hwf' & Hle & Hcells).
  unfold updateGrid. rewrite Hloop. simpl.
  eexists. split; [done|]. repeat split; [done..|].
  simpl. intros x y c n Hx Hy Hc Hn.
  destruct (Hcells x y c Hx Hy Hc) as (c' & k1 & k2 & Hc' & HQ & Hk1 & Hk2).
  destruct (HQ c n Hc Hn) as [-> ->]. exists k1. done.
Qed.
End Transition.

(** ** The hue of a random colour *)

Lemma rne_bounds n d :
  0 ≤ n → 0 < d → 0 ≤ rne n d ∧ 2 * d * rne n d ≤ 2 * n + d.
Proof.
  intros Hn Hd. unfold rne.
  pose proof (Z.div_mod n d ltac:(lia)) as Hdm.
  pose proof (Z.mod_pos_bound n d Hd) as Hr.
  pose proof (Z.div_pos n d Hn Hd) as Hq.
  destruct (Z.ltb_spec (2 * (n `mod` d)) d); [nia|].
  destruct (Z.ltb_spec d (2 * (n `mod` d))); [nia|].
  destruct (Z.even (n `div` d)); nia.
Qed.

Lemma rne_exact n : rne n 1 = n.
Proof.
  unfold rne. rewrite Z.mod_1_r, Z.div_1_r. done.
Qed.

Lemma ilog2q_1 n : 0 < n → ilog2q n 1 = Z.log2 n.
Proof.
  intros Hn. unfold ilog2q. change (Z.log2 1) with 0. rewrite Z.sub_0_r.
  pose proof (Z.log2_nonneg n) as HL.
  destruct (Z.leb_spec 0 (Z.log2 n)); [|lia].
  pose proof (Z.log2_spec n Hn) as [Hlo _].
  destruct (Z.ltb_spec n (1 * 2 ^ Z.log2 n)); [lia|done].
Qed.

(** [Math.floor(Math.random() * 360)] is a hue: the product of a double
    below one and 360 never rounds up to 360. *)
Lemma hue_of_bound r : unit_double r = true → 0 ≤ hue_of r < 360.
Proof.
  destruct r as [m e]. unfold unit_double. simpl.
  rewrite !andb_true_iff, !Z.leb_le, !Z.ltb_lt.
  intros [[[[Hm0 Hm53] He] He0] Hm].
  unfold hue_of, fmul, of_int, fl. simpl.
  destruct (Z.eqb_spec (m * 360) 0) as [Hz|Hz]; [done|].
  destruct (Z.ltb_spec (m * 360) 0); [lia|].
  set (n := m * 360) in *.
  assert (Hn : 0 < n) by lia.
  unfold round64. rewrite (ilog2q_1 n Hn), Z.add_0_r.
  pose proof (Z.log2_spec n Hn) as [HLlo _].
  pose proof (Z.log2_nonneg n) as HL0.
  assert (HpowE : 0 < 2 ^ (- e)) by (apply Z.pow_pos_nonneg; lia).
  assert (HL : Z.log2 n + e ≤ 8).
  { assert (Z.log2 n < 9 - e); [|lia].
    apply Z.log2_lt_pow2; [done|].
    replace (9 - e) with (9 + - e) by lia.
    rewrite Z.pow_add_r by lia. change (2 ^ 9) with 512. nia. }
  set (q := Z.max (Z.log2 n + e - 52) (-1074)).
  assert (Hq : q ≤ -44) by lia.
  assert (HpowQ : 0 < 2 ^ (- q)) by (apply Z.pow_pos_nonneg; lia).
  unfold Math_floor. simpl.
  destruct (Z.leb_spec 0 q); [lia|].
  destruct (Z.leb_spec 0 (e - q)) as [Hs|Hs].
  - (* the product is representable *)
    rewrite rne_exact.
    replace (- q) with (- e + (e - q)) by lia.
    rewrite Z.pow_add_r by lia.
    assert (0 < 2 ^ (e - q)) by (apply Z.pow_pos_nonneg; lia).
    rewrite Z.div_mul_cancel_r by lia.
    split; [apply Z.div_pos; lia|].
    apply Z.div_lt_upper_bound; [done|]. lia.
  - (* the product is rounded to a multiple of 2 ^ q *)
    rewrite Z.mul_1_l. replace (- (e - q)) with (q - e) by lia.
    assert (HpowD : 0 < 2 ^ (q - e)) by (apply Z.pow_pos_nonneg; lia).
    destruct (rne_bounds n (2 ^ (q - e)) ltac:(lia) HpowD) as [HR0 HR].
    set (R := rne n (2 ^ (q - e))) in *.
    split; [apply Z.div_pos; lia|].
    apply Z.div_lt_upper_bound; [done|].
    assert (HDT : 2 ^ (q - e) * 2 ^ (- q) = 2 ^ (- e)).
    { rewrite <- Z.pow_add_r by lia. f_equal. lia. }
    destruct (Z.lt_ge_cases R (2 ^ (- q) * 360)) as [|Hbig]; [done|exfalso].
    assert (Hgap : 720 * (2 ^ (- e) - m) ≤ 2 ^ (q - e)) by nia.
    destruct (Z.le_gt_cases (- e) 53) as [Hsmall|Hlarge].
    + assert (2 ^ (q - e) ≤ 2 ^ 9) by (apply Z.pow_le_mono_r; lia).
      change (2 ^ 9) with 512 in *. lia.
    + assert (Hm' : 2 ^ 53 * 2 ≤ 2 ^ (- e)).
      { change (2 ^ 53 * 2) with (2 ^ 54). apply Z.pow_le_mono_r; lia. }
      assert (2 ^ (q - e) * 2 ^ 44 ≤ 2 ^ (- e)).
      { rewrite <- Z.pow_add_r by lia. apply Z.pow_le_mono_r; lia. }
      change (2 ^ 44) with 17592186044416 in *. lia.
Qed.

(** ** Neighbour counting *)

Lemma wrap_minus_one n : 0 < n → (0 + -1) `mod` n = n - 1.
Proof.
  intros Hn. symmetry. apply (Z.mod_unique_pos _ _ (-1)); lia.
Qed.

Lemma toroidal_neighbors_origin cols rows :
  0 < cols → 0 < rows →
  toroidal_neighbors cols rows 0 0
  = (cols - 1, rows - 1) :: tail (toroidal_neighbors cols rows 0 0).
Proof.
  intros Hc Hr. unfold toroidal_neighbors, neighbor_offsets, wrap.
  cbn [fmap list_fmap tail fst snd].
  by rewrite (wrap_minus_one cols Hc), (wrap_minus_one rows Hr).
Qed.

(** C1. For a well-formed grid and a cell (x, y) of it, countNeighbors
    returns the sum of [alive] over the eight cells at the offsets
    (i, j) in {-1, 0, 1}^2 other than (0, 0), taken modulo the grid
    dimensions; each of them is a cell of the grid. For the cell (0, 0)
    the first of the eight is (cols - 1, rows - 1), so that cell's [alive]
    is one of the summands. *)
Theorem countNeighbors_toroidal g cols rows x y :
  wf_grid g cols rows = true → 0 ≤ x < cols → 0 ≤ y < rows →
  countNeighbors g cols rows x y
  = Some (alive_sum g (toroidal_neighbors cols rows x y))
  ∧ (∀ p, p ∈ toroidal_neighbors cols rows x y → is_Some (cellAt g p.1 p.2))
  ∧ toroidal_neighbors cols rows 0 0
    = (cols - 1, rows - 1) :: tail (toroidal_neighbors cols rows 0 0)
  ∧ ∃ corner, cellAt g (cols - 1) (rows - 1) = Some corner
      ∧ countNeighbors g cols rows 0 0
        = Some (alive corner
                + alive_sum g (tail (toroidal_neighbors cols rows 0 0))).
Proof.
  intros Hwf Hx Hy. split; [by apply countNeighbors_sum|]. split; [|split].
  - intros [px py] Hp. unfold toroidal_neighbors in Hp.
    apply list_elem_of_fmap in Hp as ([i j] & [= -> ->] & _). simpl.
    destruct (cellAt_Some g cols rows ((x + i) `mod` cols) ((y + j) `mod` rows))
      as [c Hc]; [done|apply Z.mod_pos_bound; lia..|]. by exists c.
  - apply toroidal_neighbors_origin; lia.
  - destruct (cellAt_Some g cols rows (cols - 1) (rows - 1)) as [c Hc];
      [done|lia..|].
    exists c. split; [done|].
    rewrite countNeighbors_sum by (done || lia).
    rewrite toroidal_neighbors_origin at 1 by lia.
    simpl. by rewrite (alive_at_Some _ _ _ _ Hc).
Qed.

(** ** The render pass *)

Lemma draw_passes_fade x y j : ∀ w c,
  wf_world w = true → 0 ≤ x < cols w → 0 ≤ y < rows w →
  cellAt (grid w) x y = Some c → alive c = 0 → Z.of_nat j ≤ fade c →
  ∃ w', draw_passes j w = Some w'
    ∧ wf_world w' = true ∧ cols w' = cols w ∧ rows w' = rows w
    ∧ cellAt (grid w') x y = Some (set_fade (fade c - Z.of_nat j) c).
Proof.
  induction j as [|j IH]; intros w c Hwf Hx Hy Hc Hdead Hf.
  - exists w. simpl. repeat split; [done|].
    rewrite Z.sub_0_r. by destruct c.
  - destruct (drawGrid_spec w Hwf) as (w1 & ps & Hdraw & Hwf1 & Hc1 & Hr1 & Hcells).
    specialize (Hcells x y c Hx Hy Hc).
    assert (Hdec : decayed c = set_fade (fade c - 1) c).
    { unfold decayed. rewrite Hdead. simpl.
      destruct (Z.ltb_spec 0 (fade c)); [done|lia]. }
    rewrite Hdec in Hcells.
    destruct (IH w1 (set_fade (fade c - 1) c)) as (w' & Hp & Hwf' & Hc' & Hr' & Hcell');
      [done|lia|lia|done|done|simpl; lia|].
    exists w'. simpl. rewrite Hdraw. simpl.
    split; [done|]. split; [done|]. split; [congruence|]. split; [congruence|].
    rewrite Hcell'. unfold set_fade. simpl. do 2 f_equal. lia.
Qed.

(** C6. One call of drawGrid turns the fade [f > 0] of a dead cell into
    [f - 1] and changes nothing else of it, and leaves a live cell and a
    dead cell without fade as they are. After [f] passes the fade of
    such a dead cell is 0, and after fewer passes it is still positive. *)
Theorem drawGrid_fade_decay w x y c :
  wf_world w = true → 0 ≤ x < cols w → 0 ≤ y < rows w →
  cellAt (grid w) x y = Some c →
  ∃ w' ps, drawGrid w = Some (w', ps)
    ∧ (alive c = 0 → 0 < fade c →
         cellAt (grid w') x y = Some (mkCell 0 (color c) (fade c - 1)))
    ∧ (alive c ≠ 0 ∨ fade c ≤ 0 → cellAt (grid w') x y = Some c)
    ∧ (alive c = 0 → 0 < fade c →
         (∃ w'', draw_passes (Z.to_nat (fade c)) w = Some w''
                 ∧ cellAt (grid w'') x y = Some (mkCell 0 (color c) 0))
         ∧ ∀ j, (j < Z.to_nat (fade c))%nat →
             ∃ wj, draw_passes j w = Some wj
                   ∧ cellAt (grid wj) x y
                     = Some (mkCell 0 (color c) (fade c - Z.of_nat j))
                   ∧ 0 < fade c - Z.of_nat j).
Proof.
  intros Hwf Hx Hy Hc.
  destruct (drawGrid_spec w Hwf) as (w1 & ps & Hdraw & _ & _ & _ & Hcells).
  exists w1, ps. split; [done|]. specialize (Hcells x y c Hx Hy Hc).
  split; [|split].
  - intros Hdead Hf. rewrite Hcells. unfold decayed, set_fade.
    rewrite Hdead. simpl. destruct (Z.ltb_spec 0 (fade c)); [done|lia].
  - intros Hcase. rewrite Hcells. unfold decayed.
    destruct (Z.eqb_spec (alive c) 0); simpl; [|done].
    destruct (Z.ltb_spec 0 (fade c)); [lia|done].
  - intros Hdead Hf. split.
    + destruct (draw_passes_fade x y (Z.to_nat (fade c)) w c)
        as (w' & Hp & _ & _ & _ & Hcell); [done..|lia|].
      exists w'. split; [done|]. rewrite Hcell. unfold set_fade.
      rewrite Hdead. do 2 f_equal. lia.
    + intros j Hj.
      destruct (draw_passes_fade x y j w c)
        as (w' & Hp & _ & _ & _ & Hcell); [done..|lia|].
      exists w'. split; [done|]. split; [|lia].
      rewrite Hcell. unfold set_fade. by rewrite Hdead.
Qed.

(** ** The transition *)

Section TransitionClaims.
Variable random : nat → double.

(** C2. A live cell with fewer than two or more than three live
    neighbours is dead after updateGrid, with fade 10 and the colour it
    had. *)
Theorem updateGrid_death w x y c n :
  wf_world w = true → 0 ≤ x < cols w → 0 ≤ y < rows w →
  cellAt (grid w) x y = Some c →
  countNeighbors (grid w) (cols w) (rows w) x y = Some n →
  alive c = 1 → n < 2 ∨ 3 < n →
  ∃ w', updateGrid random w = Some w'
    ∧ cellAt (grid w') x y = Some (mkCell 0 (color c) 10).
Proof.
  intros Hwf Hx Hy Hc Hn Halive Hcount.
  destruct (updateGrid_spec random w Hwf) as (w' & Hup & _ & _ & _ & _ & Hcells).
  exists w'. split; [done|].
  destruct (Hcells x y c n Hx Hy Hc Hn) as (k & _ & _ & ->).
  unfold next_cell. rewrite Halive. simpl.
  destruct (Z.ltb_spec n 2); simpl; [done|].
  destruct (Z.ltb_spec 3 n); [done|lia].
Qed.

(** C3. A dead cell with exactly three live neighbours is alive after
    updateGrid, with fade 0 and the colour that getRandomColor makes of
    a value of the random stream drawn during this call: full
    saturation, 70% lightness and a hue in [0, 360). *)
Theorem updateGrid_birth w x y c n :
  (∀ k, unit_double (random k) = true) →
  wf_world w = true → 0 ≤ x < cols w → 0 ≤ y < rows w →
  cellAt (grid w) x y = Some c →
  countNeighbors (grid w) (cols w) (rows w) x y = Some n →
  alive c ≠ 1 → n = 3 →
  ∃ w' k hue, updateGrid random w = Some w'
    ∧ (draws w ≤ k < draws w')%nat
    ∧ cellAt (grid w') x y = Some (mkCell 1 (getRandomColor random k) 0)
    ∧ getRandomColor random k = "hsl(" +:+ pretty hue +:+ ", 100%, 70%)"
    ∧ hue = Math_floor (fmul (random k) (of_int 360))
    ∧ 0 ≤ hue < 360.
Proof.
  intros Hrnd Hwf Hx Hy Hc Hn Hdead ->.
  destruct (updateGrid_spec random w Hwf) as (w' & Hup & _ & _ & _ & _ & Hcells).
  destruct (Hcells x y c 3 Hx Hy Hc Hn) as (k & Hk & Hk' & Hcell).
  unfold next_cell in Hk', Hcell.
  destruct (Z.eqb_spec (alive c) 1); [done|]. simpl in Hk', Hcell.
  exists w', k, (hue_of (random k)). split; [done|]. split; [lia|].
  split; [done|]. split; [done|]. split; [done|].
  apply hue_of_bound, Hrnd.
Qed.

(** C4. A live cell with two or three live neighbours is the same cell
    after updateGrid: alive, with its colour and its fade. *)
Theorem updateGrid_survival w x y c n :
  wf_world w = true → 0 ≤ x < cols w → 0 ≤ y < rows w →
  cellAt (grid w) x y = Some c →
  countNeighbors (grid w) (cols w) (rows w) x y = Some n →
  alive c = 1 → n = 2 ∨ n = 3 →
  ∃ w', updateGrid random w = Some w'
    ∧ cellAt (grid w') x y = Some c
    ∧ cellAt (grid w') x y = Some (mkCell 1 (color c) (fade c)).
Proof.
  intros Hwf Hx Hy Hc Hn Halive Hcount.
  destruct (updateGrid_spec random w Hwf) as (w' & Hup & _ & _ & _ & _ & Hcells).
  exists w'. split; [done|].
  destruct (Hcells x y c n Hx Hy Hc Hn) as (k & _ & _ & ->).
  unfold next_cell. rewrite Halive. simpl.
  destruct (Z.ltb_spec n 2); simpl; [lia|].
  destruct (Z.ltb_spec 3 n); [lia|]. simpl.
  split; [done|]. destruct c; simpl in *. by subst.
Qed.

(** C5. A dead cell whose live-neighbour count is not three is the same
    cell after updateGrid, in all three fields; its fade in particular is
    not lowered by the transition. *)
Theorem updateGrid_dead_unchanged w x y c n :
  wf_world w = true → 0 ≤ x < cols w → 0 ≤ y < rows w →
  cellAt (grid w) x y = Some c →
  countNeighbors (grid w) (cols w) (rows w) x y = Some n →
  alive c ≠ 1 → n ≠ 3 →
  ∃ w' c', updateGrid random w = Some w'
    ∧ cellAt (grid w') x y = Some c'
    ∧ c' = c
    ∧ alive c' = alive c ∧ color c' = color c ∧ fade c' = fade c.
Proof.
  intros Hwf Hx Hy Hc Hn Hdead Hcount.
  destruct (updateGrid_spec random w Hwf) as (w' & Hup & _ & _ & _ & _ & Hcells).
  exists w', c. split; [done|].
  destruct (Hcells x y c n Hx Hy Hc Hn) as (k & _ & _ & ->).
  unfold next_cell.
  destruct (Z.eqb_spec (alive c) 1); [done|].
  destruct (Z.eqb_spec n 3); [done|]. done.
Qed.

(** C10. On a grid with fewer than three columns or fewer than three
    rows two different offsets of countNeighbors wrap to the same
    cell, which the sum then counts twice. On the 1 by 1 grid all eight
    offsets wrap to the only cell: if it is alive its neighbour count is
    8, and updateGrid kills it. *)
Theorem countNeighbors_small_grid g nc nr x y :
  wf_grid g nc nr = true → 0 ≤ x < nc → 0 ≤ y < nr →
  nc < 3 ∨ nr < 3 →
  (∃ o1 o2, o1 ∈ neighbor_offsets ∧ o2 ∈ neighbor_offsets ∧ o1 ≠ o2
      ∧ wrap nc nr x y o1 = wrap nc nr x y o2)
  ∧ countNeighbors g nc nr x y
    = Some (alive_sum g (toroidal_neighbors nc nr x y))
  ∧ ∀ w c, grid w = [[c]] → cols w = 1 → rows w = 1 → alive c = 1 →
      toroidal_neighbors 1 1 0 0 = replicate 8 (0, 0)
      ∧ countNeighbors (grid w) (cols w) (rows w) 0 0 = Some 8
      ∧ updateGrid random w
        = Some (with_grid [[mkCell 0 (color c) 10]] (draws w) w).
Proof.
  intros Hwf Hx Hy Hsmall. split; [|split].
  - destruct Hsmall as [Hc|Hr].
    + exists (-1, 0), (1, 0). unfold neighbor_offsets, wrap. simpl.
      repeat split; [apply list_elem_of_In; simpl; tauto..|done|]. f_equal.
      assert (nc = 1 ∨ nc = 2) as [-> | ->] by lia.
      * by rewrite !Z.mod_1_r.
      * replace (x + 1) with (x + -1 + 1 * 2) by lia.
        by rewrite Z_mod_plus_full.
    + exists (0, -1), (0, 1). unfold neighbor_offsets, wrap. simpl.
      repeat split; [apply list_elem_of_In; simpl; tauto..|done|]. f_equal.
      assert (nr = 1 ∨ nr = 2) as [-> | ->] by lia.
      * by rewrite !Z.mod_1_r.
      * replace (y + 1) with (y + -1 + 1 * 2) by lia.
        by rewrite Z_mod_plus_full.
  - by apply countNeighbors_sum.
  - intros w [a col f] Hg Hcols Hrows Halive. simpl in Halive. subst a.
    split; [done|]. unfold updateGrid. rewrite Hg, Hcols, Hrows.
    split; [done|]. done.
Qed.
End TransitionClaims.

(** ** The frame loop *)

Lemma drawGrid_frame w w' ps :
  drawGrid w = Some (w', ps) → ∃ g, w' = with_grid g (draws w) w.
Proof.
  unfold drawGrid. intros H.
  destruct (for_cells (cols w) (rows w) drawCell (grid w, [])) as [[g ps']|];
    simpl in H; [|done].
  injection H as <- _. by exists g.
Qed.


Section FrameLoop.
Variable random : nat → double.

Lemma updateGrid_frame w w' :
  updateGrid random w = Some w' → ∃ g k, w' = with_grid g k w.
Proof.
  unfold updateGrid. intros H.
  destruct (for_cells (cols w) (rows w)
              (updateCell random (grid w) (cols w) (rows w)) (grid w, draws w))
    as [[g k]|]; simpl in H; [|done].
  injection H as <-. by exists g, k.
Qed.

(** One frame: the transition runs exactly when the interval has
    elapsed, the render pass always runs, after it. *)
Lemma gameLoop_spec t w :
  wf_world w = true →
  let last := if lastUpdateTime w =? 0 then t else lastUpdateTime w in
  let due := updateInterval <=? t - last in
  ∃ w1 ps,
    gameLoop random t w = Some (w1, (if due then [Stepped] else []) ++ [Drawn ps])
    ∧ wf_world w1 = true
    ∧ lastUpdateTime w1 = (if due then t else last).
Proof.
  intros Hwf last due. unfold gameLoop.
  set (w0 := if lastUpdateTime w =? 0 then with_lastUpdateTime t w else w).
  assert (Hwf0 : wf_world w0 = true).
  { unfold w0. by destruct (lastUpdateTime w =? 0). }
  assert (Hlast0 : lastUpdateTime w0 = last).
  { unfold w0, last. by destruct (lastUpdateTime w =? 0). }
  rewrite Hlast0. fold due. destruct due.
  - destruct (updateGrid_spec random w0 Hwf0) as (w' & Hup & Hwf' & _).
    rewrite Hup. simpl.
    destruct (updateGrid_frame _ _ Hup) as (g & k & ->).
    destruct (drawGrid_spec (with_lastUpdateTime t (with_grid g k w0)))
      as (w1 & ps & Hdraw & Hwf1 & _); [done|].
    rewrite Hdraw. simpl. exists w1, ps. repeat split; [done|].
    destruct (drawGrid_frame _ _ _ Hdraw) as (g1 & ->). done.
  - simpl.
    destruct (drawGrid_spec w0 Hwf0) as (w1 & ps & Hdraw & Hwf1 & _).
    rewrite Hdraw. simpl. exists w1, ps. repeat split; [done|].
    destruct (drawGrid_frame _ _ _ Hdraw) as (g1 & ->). done.
Qed.


End FrameLoop.

(** ** Keys of touched cells *)

Lemma pretty_N_go_no_comma x s :
  has_comma s = false → has_comma (pretty_N_go x s) = false.
Proof.
  revert s. induction (N.lt_wf_0 x) as [x _ IH]; intros s Hs.
  assert (x = 0 ∨ 0 < x)%N as [->|Hx] by lia.
  - by rewrite pretty_N_go_0.
  - rewrite pretty_N_go_step by done. apply IH.
    { by apply N.div_lt. }
    simpl. rewrite Hs. unfold pretty_N_char. by repeat case_match.
Qed.

Lemma pretty_Z_no_comma (z : Z) : has_comma (pretty z) = false.
Proof.
  assert (HN : ∀ n : N, has_comma (pretty n) = false).
  { intros n. unfold pretty, pretty_N. case_decide; [done|].
    by apply pretty_N_go_no_comma. }
  destruct z as [|p|p]; [done|apply HN|].
  unfold pretty, pretty_Z. simpl. apply HN.
Qed.

Lemma comma_split s1 : ∀ s2 t1 t2,
  has_comma s1 = false → has_comma s2 = false →
  s1 +:+ "," +:+ t1 = s2 +:+ "," +:+ t2 → s1 = s2 ∧ t1 = t2.
Proof.
  induction s1 as [|a s1 IH]; intros [|b s2] t1 t2 H1 H2 Heq; cbn in *.
  - by simplify_eq.
  - simplify_eq; rewrite ?bool_decide_eq_true_2 in * by done; done.
  - simplify_eq; rewrite ?bool_decide_eq_true_2 in * by done; done.
  - injection Heq as -> Heq. apply orb_false_iff in H1 as [_ H1].
    apply orb_false_iff in H2 as [_ H2].
    destruct (IH s2 t1 t2 H1 H2 Heq) as [-> ->]. done.
Qed.

(** Two cells have the same key only if they are the same cell. *)
Lemma cell_key_inj c1 r1 c2 r2 :
  cell_key c1 r1 = cell_key c2 r2 → (c1, r1) = (c2, r2).
Proof.
  unfold cell_key. intros Heq.
  apply comma_split in Heq as [Hc Hr]; [|apply pretty_Z_no_comma..].
  apply (inj pretty) in Hc, Hr. by subst.
Qed.



Lemma edited_cells_app es1 es2 :
  edited_cells (es1 ++ es2) = edited_cells es1 ++ edited_cells es2.
Proof. unfold edited_cells. apply bind_app. Qed.

(** ** toggleCell *)

Lemma pointed_cell_view w1 w2 p :
  view w1 = view w2 → pointed_cell w1 p = pointed_cell w2 p.
Proof. unfold view, pointed_cell. by intros [= -> -> -> ->]. Qed.

Lemma toggle_target_Some w p col row :
  toggle_target w p = Some (col, row) ↔
  pointed_cell w p = Some (col, row)
  ∧ (0 ≤ col < cols w ∧ 0 ≤ row < rows w)
  ∧ cell_key col row ∉ touchedCells w.
Proof.
  unfold toggle_target. destruct (pointed_cell w p) as [[c r]|]; simpl;
    [|split; [done|by intros [? _]]].
  destruct (Z.leb_spec 0 c), (Z.ltb_spec c (cols w)),
    (Z.leb_spec 0 r), (Z.ltb_spec r (rows w)); simpl;
    try (split; [done|intros [[= -> ->] [? _]]; lia]).
  case_bool_decide; simpl.
  - split; [done|]. by intros [[= -> ->] [_ ?]].
  - split; [intros [= -> ->]; done|]. by intros [[= -> ->] _].
Qed.


Section Gesture.
Variable random : nat → double.

Lemma toggleCell_skip w p :
  toggle_target w p = None → toggleCell random p w = Some (w, []).
Proof. unfold toggleCell. by intros ->. Qed.




End Gesture.

(** ** Grid dimensions at start-up *)

Lemma rne_lower n d : 0 ≤ n → 0 < d → n `div` d ≤ rne n d.
Proof.
  intros Hn Hd. unfold rne.
  destruct (2 * (n `mod` d) <? d); [lia|].
  destruct (d <? 2 * (n `mod` d)); [lia|].
  destruct (Z.even (n `div` d)); lia.
Qed.

Lemma ilog2q_range n d :
  Z.log2 n - Z.log2 d - 1 ≤ ilog2q n d ≤ Z.log2 n - Z.log2 d.
Proof.
  unfold ilog2q.
  destruct (0 <=? Z.log2 n - Z.log2 d);
    [destruct (n <? d * 2 ^ (Z.log2 n - Z.log2 d))
    |destruct (n * 2 ^ (- (Z.log2 n - Z.log2 d)) <? d)]; lia.
Qed.

(** For a canvas dimension and a cell size of ordinary magnitude the
    rounded quotient has the integer part of the exact one. *)
Lemma floor_fdiv_exact a c :
  0 ≤ a < 2 ^ 32 → 0 < c ≤ 2 ^ 20 → Math_floor (fdiv_int a c) = a `div` c.
Proof.
  intros Ha Hc. unfold fdiv_int, fl.
  destruct (Z.eqb_spec a 0) as [->|Hnz]; [done|].
  destruct (Z.ltb_spec a 0); [lia|].
  unfold round64. rewrite Z.add_0_r.
  pose proof (ilog2q_range a c) as Hp.
  assert (0 ≤ Z.log2 a < 32).
  { split; [apply Z.log2_nonneg|apply Z.log2_lt_pow2; lia]. }
  assert (0 ≤ Z.log2 c ≤ 20).
  { split; [apply Z.log2_nonneg|].
    change 20 with (Z.log2 (2 ^ 20)). apply Z.log2_le_mono. lia. }
  set (q := Z.max (ilog2q a c - 52) (-1074)).
  assert (Hq : -73 ≤ q ≤ -21) by lia.
  unfold Math_floor. simpl.
  destruct (Z.leb_spec 0 q); [lia|].
  destruct (Z.leb_spec 0 (0 - q)); [|lia].
  replace (0 - q) with (- q) by lia.
  assert (HT : 2 ^ 21 ≤ 2 ^ (- q)) by (apply Z.pow_le_mono_r; lia).
  change (2 ^ 21) with 2097152 in HT. change (2 ^ 20) with 1048576 in Hc.
  set (T := 2 ^ (- q)) in *.
  destruct (rne_bounds (a * T) c ltac:(nia) ltac:(lia)) as [_ Hup].
  pose proof (rne_lower (a * T) c ltac:(nia) ltac:(lia)) as Hlo.
  set (M := rne (a * T) c) in *.
  pose proof (Z.div_mod a c ltac:(lia)) as Hdm.
  pose proof (Z.mod_pos_bound a c ltac:(lia)) as Hr.
  assert (Hfloor : a `div` c * T ≤ (a * T) `div` c).
  { apply Z.div_le_lower_bound; [lia|]. nia. }
  symmetry. apply (Z.div_unique_pos M T (a `div` c) (M - a `div` c * T)); [|lia].
  split; [lia|]. nia.
Qed.

Lemma build_spec {A} (f : nat → A * nat) n : ∀ k,
  length (build n f k).1 = n
  ∧ ∀ a, a ∈ (build n f k).1 → ∃ k', a = (f k').1.
Proof.
  induction n as [|n IH]; intros k; simpl.
  - split; [done|]. intros a Hin. by apply elem_of_nil in Hin.
  - destruct (f k) as [a0 k1] eqn:Hf. specialize (IH k1).
    destruct (build n f k1) as [l k2]. simpl in *. destruct IH as [Hlen Hall].
    split; [by rewrite Hlen|]. intros a Hin.
    apply elem_of_cons in Hin as [->|Hin]; [|by apply Hall].
    exists k. by rewrite Hf.
Qed.

Section StartUp.
Variable random : nat → double.

Lemma createGrid_wf nc nr k :
  0 ≤ nc → 0 ≤ nr →
  ∃ g k', createGrid random nc nr k = Some (g, k')
          ∧ wf_grid g nc nr = true.
Proof.
  intros Hc Hr. unfold createGrid.
  destruct (Z.ltb_spec nc 0); [lia|].
  destruct (Z.eqb_spec nc 0) as [->|Hnz].
  { exists [], k. split; [done|]. apply wf_grid_intro; [done..|].
    intros column Hin. by apply elem_of_nil in Hin. }
  destruct (Z.ltb_spec nr 0); [lia|].
  destruct (build (Z.to_nat nc) (build (Z.to_nat nr) (new_cell random)) k)
    as [g k'] eqn:Hb.
  exists g, k'. split; [done|].
  destruct (build_spec (build (Z.to_nat nr) (new_cell random)) (Z.to_nat nc) k)
    as [Hlen Hall].
  rewrite Hb in Hlen, Hall. simpl in Hlen, Hall.
  apply wf_grid_intro; [done|lia|].
  intros column Hin. destruct (Hall column Hin) as [k1 ->].
  destruct (build_spec (new_cell random) (Z.to_nat nr) k1) as [Hl _]. lia.
Qed.

Lemma run_frame_total t w :
  wf_world w = true → ∃ w' es, gameLoop random t w = Some (w', es).
Proof.
  intros Hwf. destruct (gameLoop_spec random t w Hwf) as (w' & ps & H & _).
  eauto.
Qed.

(** C9, as the program has it. When the [cellSize] option is missing or
    0 the cell size is the default 10: the grid then has
    [offsetWidth / 10] columns and [offsetHeight / 10] rows, start-up
    returns and every frame after it runs. Every other [cellSize],
    a negative one included, is used as given. *)
Theorem startGameOfLife_default_cellSize ow oh o :
  0 ≤ ow < 2 ^ 32 → 0 ≤ oh < 2 ^ 32 → o = Absent ∨ o = Given 0 →
  effective_cellSize o = 10
  ∧ (∃ w, startGameOfLife random ow oh o = Some w
        ∧ cellSize w = 10
        ∧ cols w = ow `div` 10 ∧ rows w = oh `div` 10
        ∧ wf_world w = true
        ∧ ∀ t, ∃ w' es, gameLoop random t w = Some (w', es))
  ∧ ∀ z, z ≠ 0 → effective_cellSize (Given z) = z.
Proof.
  intros Hw Hh Ho.
  assert (Heff : effective_cellSize o = 10) by (by destruct Ho as [-> | ->]).
  split; [done|]. split.
  - unfold startGameOfLife, resizeCanvas. rewrite Heff. simpl.
    rewrite !floor_fdiv_exact by (done || lia).
    destruct (createGrid_wf (ow `div` 10) (oh `div` 10) 0%nat)
      as (g & k & -> & Hwf); [apply Z.div_pos; lia..|].
    simpl. eexists. split; [done|]. repeat split; [done|].
    intros t. by apply run_frame_total.
  - intros z Hz. simpl. by destruct (Z.eqb_spec z 0).
Qed.
End StartUp.

(** ** The properties on sample inputs *)

Example hue_largest_draw : hue_of (Dbl (2 ^ 53 - 1) (-53)) = 359.
Proof. reflexivity. Qed.

(** The rounded product can reach the next integer: the exact value of
    [r * 360] is below 300 here. *)
Example hue_rounds_up :
  let r := Dbl ((300 * 2 ^ 53) `div` 360) (-53) in
  hue_of r = 300 ∧ (dm r * 360) `div` 2 ^ 53 = 299.
Proof. split; reflexivity. Qed.

(** [Math.floor((1 / 49) * 49)] is 0. *)
Example pixel_rounding : pixel_to_index 1 49 49 = Some 0.
Proof. reflexivity. Qed.

(** Frames every 16 units: the transition runs at 80 and at 144. *)
Example frames_every_16 :
  (λ r : World * list (Z * list Effect), step_flags r.2)
    <$> run_frames sample_random [16; 32; 48; 64; 80; 96; 112; 128; 144; 160]
          sample_world
  = Some [(16, false); (32, false); (48, false); (64, false); (80, true);
          (96, false); (112, false); (128, false); (144, true); (160, false)].
Proof. vm_compute. reflexivity. Qed.

Lemma countNeighbors_toroidal_witness :
  countNeighbors sample_grid 4 4 0 0
  = Some (alive_sum sample_grid (toroidal_neighbors 4 4 0 0))
  ∧ (∀ p, p ∈ toroidal_neighbors 4 4 0 0 → is_Some (cellAt sample_grid p.1 p.2))
  ∧ toroidal_neighbors 4 4 0 0
    = (4 - 1, 4 - 1) :: tail (toroidal_neighbors 4 4 0 0)
  ∧ ∃ corner, cellAt sample_grid (4 - 1) (4 - 1) = Some corner
      ∧ countNeighbors sample_grid 4 4 0 0
        = Some (alive corner
                + alive_sum sample_grid (tail (toroidal_neighbors 4 4 0 0))).
Proof.
  apply (countNeighbors_toroidal sample_grid 4 4 0 0); [reflexivity|lia|lia].
Defined.

Lemma updateGrid_death_witness :
  ∃ w', updateGrid sample_random sample_world = Some w'
    ∧ cellAt (grid w') 0 0 = Some (mkCell 0 (color live_cell) 10).
Proof.
  apply (updateGrid_death sample_random sample_world 0 0 live_cell 1);
    [reflexivity|simpl; lia|simpl; lia|reflexivity|reflexivity|reflexivity
    |left; lia].
Defined.

Lemma updateGrid_birth_witness :
  ∃ w' k hue, updateGrid sample_random sample_world = Some w'
    ∧ (draws sample_world ≤ k < draws w')%nat
    ∧ cellAt (grid w') 2 2 = Some (mkCell 1 (getRandomColor sample_random k) 0)
    ∧ getRandomColor sample_random k = "hsl(" +:+ pretty hue +:+ ", 100%, 70%)"
    ∧ hue = Math_floor (fmul (sample_random k) (of_int 360))
    ∧ 0 ≤ hue < 360.
Proof.
  apply (updateGrid_birth sample_random sample_world 2 2 dead_cell 3);
    [intros k; unfold sample_random; destruct (Nat.even k); reflexivity
    |reflexivity|simpl; lia|simpl; lia|reflexivity|reflexivity
    |simpl; lia|reflexivity].
Defined.

Lemma updateGrid_survival_witness :
  ∃ w', updateGrid sample_random sample_world = Some w'
    ∧ cellAt (grid w') 1 1 = Some live_cell
    ∧ cellAt (grid w') 1 1 = Some (mkCell 1 (color live_cell) (fade live_cell)).
Proof.
  apply (updateGrid_survival sample_random sample_world 1 1 live_cell 3);
    [reflexivity|simpl; lia|simpl; lia|reflexivity|reflexivity|reflexivity
    |right; reflexivity].
Defined.

Lemma updateGrid_dead_unchanged_witness :
  ∃ w' c', updateGrid sample_random sample_world = Some w'
    ∧ cellAt (grid w') 3 3 = Some c'
    ∧ c' = fading_cell
    ∧ alive c' = alive fading_cell ∧ color c' = color fading_cell
    ∧ fade c' = fade fading_cell.
Proof.
  apply (updateGrid_dead_unchanged sample_random sample_world 3 3 fading_cell 1);
    [reflexivity|simpl; lia|simpl; lia|reflexivity|reflexivity
    |simpl; lia|lia].
Defined.

Lemma drawGrid_fade_decay_witness :
  ∃ w' ps, drawGrid sample_world = Some (w', ps)
    ∧ (alive fading_cell = 0 → 0 < fade fading_cell →
         cellAt (grid w') 3 3
         = Some (mkCell 0 (color fading_cell) (fade fading_cell - 1)))
    ∧ (alive fading_cell ≠ 0 ∨ fade fading_cell ≤ 0 →
         cellAt (grid w') 3 3 = Some fading_cell)
    ∧ (alive fading_cell = 0 → 0 < fade fading_cell →
         (∃ w'', draw_passes (Z.to_nat (fade fading_cell)) sample_world = Some w''
                 ∧ cellAt (grid w'') 3 3 = Some (mkCell 0 (color fading_cell) 0))
         ∧ ∀ j, (j < Z.to_nat (fade fading_cell))%nat →
             ∃ wj, draw_passes j sample_world = Some wj
                   ∧ cellAt (grid wj) 3 3
                     = Some (mkCell 0 (color fading_cell)
                               (fade fading_cell - Z.of_nat j))
                   ∧ 0 < fade fading_cell - Z.of_nat j).
Proof.
  apply (drawGrid_fade_decay sample_world 3 3 fading_cell);
    [reflexivity|simpl; lia|simpl; lia|reflexivity].
Defined.



Lemma startGameOfLife_default_cellSize_witness :
  effective_cellSize (Given 0) = 10
  ∧ (∃ w, startGameOfLife sample_random 40 40 (Given 0) = Some w
        ∧ cellSize w = 10
        ∧ cols w = 40 `div` 10 ∧ rows w = 40 `div` 10
        ∧ wf_world w = true
        ∧ ∀ t, ∃ w' es, gameLoop sample_random t w = Some (w', es))
  ∧ ∀ z, z ≠ 0 → effective_cellSize (Given z) = z.
Proof.
  apply (startGameOfLife_default_cellSize sample_random 40 40 (Given 0));
    [split; [lia|reflexivity]|split; [lia|reflexivity]|right; reflexivity].
Defined.

(** A cell size of -5 stays -5, and start-up on a 100 by 100 canvas
    fails on the negative array length. *)
Lemma negative_cellSize_not_clamped :
  effective_cellSize (Given (-5)) = -5
  ∧ ¬ 0 < effective_cellSize (Given (-5))
  ∧ startGameOfLife sample_random 100 100 (Given (-5)) = None.
Proof.
  split; [reflexivity|]. split; [simpl; lia|reflexivity].
Qed.

Lemma countNeighbors_small_grid_witness :
  (∃ o1 o2, o1 ∈ neighbor_offsets ∧ o2 ∈ neighbor_offsets ∧ o1 ≠ o2
      ∧ wrap 1 1 0 0 o1 = wrap 1 1 0 0 o2)
  ∧ countNeighbors [[live_cell]] 1 1 0 0
    = Some (alive_sum [[live_cell]] (toroidal_neighbors 1 1 0 0))
  ∧ ∀ w c, grid w = [[c]] → cols w = 1 → rows w = 1 → alive c = 1 →
      toroidal_neighbors 1 1 0 0 = replicate 8 (0, 0)
      ∧ countNeighbors (grid w) (cols w) (rows w) 0 0 = Some 8
      ∧ updateGrid sample_random w
        = Some (with_grid [[mkCell 0 (color c) 10]] (draws w) w).
Proof.
  apply (countNeighbors_small_grid sample_random [[live_cell]] 1 1 0 0);
    [reflexivity|lia|lia|left; lia].
Defined.

(** * Further properties of the program *)

(** ** Seeding the grid *)

Lemma build_stride {A} (a : nat → A) (s : nat) (f : nat → A * nat) :
  (∀ k, f k = (a k, (k + s)%nat)) →
  ∀ n k, build n f k = ((λ i, a (k + i * s)%nat) <$> seq 0 n, (k + n * s)%nat).
Proof.
  intros Hf. induction n as [|n IH]; intros k; simpl.
  - f_equal. lia.
  - rewrite Hf, IH. f_equal; [|lia]. rewrite Nat.add_0_r. f_equal.
    rewrite <- fmap_S_seq, <- list_fmap_compose. apply list_fmap_ext.
    intros _ i _. simpl. f_equal. lia.
Qed.

Lemma rne_multiple c k : 0 < c → rne (c * k) c = k.
Proof.
  intros Hc. unfold rne.
  rewrite (Z.mul_comm c k), Z.mod_mul, Z.div_mul by lia.
  change (2 * 0) with 0. by destruct (Z.ltb_spec 0 c); [|lia].
Qed.

Lemma floor_fdiv_exact_neg a c :
  0 ≤ a < 2 ^ 32 → 0 < c ≤ 2 ^ 20 → Math_floor (fdiv_int (- a) c) = (- a) `div` c.
Proof.
  intros Ha Hc. destruct (decide (a = 0)) as [->|Hnz].
  { change (- 0) with 0. by rewrite (floor_fdiv_exact 0 c) by lia. }
  unfold fdiv_int, fl.
  destruct (Z.eqb_spec (- a) 0); [lia|]. destruct (Z.ltb_spec (- a) 0); [|lia].
  rewrite Z.opp_involutive. unfold round64. rewrite Z.add_0_r.
  pose proof (ilog2q_range a c) as Hp.
  assert (0 ≤ Z.log2 a < 32).
  { split; [apply Z.log2_nonneg|apply Z.log2_lt_pow2; lia]. }
  assert (0 ≤ Z.log2 c ≤ 20).
  { split; [apply Z.log2_nonneg|].
    change 20 with (Z.log2 (2 ^ 20)). apply Z.log2_le_mono. lia. }
  set (q := Z.max (ilog2q a c - 52) (-1074)).
  assert (Hq : -73 ≤ q ≤ -21) by lia.
  unfold Math_floor. simpl.
  destruct (Z.leb_spec 0 q); [lia|].
  destruct (Z.leb_spec 0 (0 - q)); [|lia].
  replace (0 - q) with (- q) by lia.
  assert (HT : 2 ^ 21 ≤ 2 ^ (- q)) by (apply Z.pow_le_mono_r; lia).
  change (2 ^ 21) with 2097152 in HT. change (2 ^ 20) with 1048576 in Hc.
  set (T := 2 ^ (- q)) in *.
  destruct (rne_bounds (a * T) c ltac:(nia) ltac:(lia)) as [_ Hup].
  pose proof (rne_lower (a * T) c ltac:(nia) ltac:(lia)) as Hlo.
  set (M := rne (a * T) c) in *.
  pose proof (Z.div_mod a c ltac:(lia)) as Hdm.
  pose proof (Z.mod_pos_bound a c ltac:(lia)) as Hr.
  pose proof (Z.div_mod (- a) c ltac:(lia)) as Hdm'.
  pose proof (Z.mod_pos_bound (- a) c ltac:(lia)) as Hr'.
  assert (Hfloor : (a `mod` c * T) `div` c + a `div` c * T ≤ (a * T) `div` c).
  { apply Z.div_le_lower_bound; [lia|].
    pose proof (Z.mul_div_le (a `mod` c * T) c ltac:(lia)). nia. }
  assert (Hpos : a `mod` c ≠ 0 → 1 ≤ (a `mod` c * T) `div` c).
  { intros Hne. apply Z.div_le_lower_bound; [lia|]. nia. }
  symmetry.
  apply (Z.div_unique_pos (- M) T ((- a) `div` c) (- M - (- a) `div` c * T)); [|lia].
  destruct (decide (a `mod` c = 0)) as [Hz|Hnzr].
  - assert ((- a) `div` c = - (a `div` c)) as -> by nia.
    assert (M = a `div` c * T); [|lia].
    assert (a * T = c * (a `div` c * T)) as Hex by nia.
    unfold M. rewrite Hex. apply rne_multiple. lia.
  - specialize (Hpos Hnzr).
    assert ((- a) `div` c = - (a `div` c) - 1) as -> by nia.
    split; nia.
Qed.

(** [Math.floor(a / c)] for a canvas dimension and a cell size of either
    sign. *)
Lemma divide_floor a c :
  0 ≤ a < 2 ^ 32 → c ≠ 0 → - 2 ^ 20 ≤ c ≤ 2 ^ 20 →
  Math_floor <$> divide a c = Some (a `div` c).
Proof.
  intros Ha Hc0 Hc. unfold divide.
  destruct (Z.eqb_spec c 0); [done|]. destruct (Z.ltb_spec c 0); simpl; f_equal.
  - rewrite floor_fdiv_exact_neg by lia. apply Z.div_opp_opp. lia.
  - apply floor_fdiv_exact; lia.
Qed.

Lemma lookup_fmap_seq {A} (a : nat → A) (n i : nat) :
  (i < n)%nat → ((λ j, a j) <$> seq 0 n) !! i = Some (a i).
Proof.
  intros Hi. rewrite list_lookup_fmap, lookup_seq_lt by done. done.
Qed.

Section Seeding.
Variable random : nat → double.

Lemma createGrid_cells nc nr k :
  0 ≤ nc → 0 ≤ nr →
  ∃ g, createGrid random nc nr k = Some (g, (k + Z.to_nat (2 * nc * nr))%nat)
    ∧ wf_grid g nc nr = true
    ∧ ∀ x y, 0 ≤ x < nc → 0 ≤ y < nr →
        cellAt g x y = Some (new_cell random (k + Z.to_nat (2 * (x * nr + y)))).1.
Proof.
  intros Hc Hr.
  destruct (createGrid_wf random nc nr k Hc Hr) as (g & k' & Hg & Hwf).
  exists g. unfold createGrid in *.
  destruct (Z.ltb_spec nc 0); [lia|].
  destruct (Z.eqb_spec nc 0) as [->|Hnz].
  { injection Hg as <- <-. simpl. rewrite Nat.add_0_r. split; [done|].
    split; [done|]. intros x y Hx. lia. }
  destruct (Z.ltb_spec nr 0); [lia|].
  set (cellv := λ j, (new_cell random j).1).
  set (column := λ j, (λ i, cellv (j + i * 2)%nat) <$> seq 0 (Z.to_nat nr)).
  assert (Hcol : ∀ j, build (Z.to_nat nr) (new_cell random) j
                      = (column j, (j + Z.to_nat nr * 2)%nat)).
  { intros j. apply build_stride. intros i. unfold cellv, new_cell. simpl.
    f_equal. lia. }
  rewrite (build_stride column (Z.to_nat nr * 2) _ Hcol) in Hg |- *.
  injection Hg as <- <-. split; [f_equal; f_equal; nia|]. split; [done|].
  intros x y Hx Hy. unfold cellAt, at_index.
  destruct (Z.leb_spec 0 x); [|lia]. destruct (Z.leb_spec 0 y); [|lia].
  rewrite (lookup_fmap_seq (λ i, column (k + i * (Z.to_nat nr * 2))%nat)) by lia.
  simpl. unfold column.
  rewrite (lookup_fmap_seq (λ i, cellv (k + Z.to_nat x * (Z.to_nat nr * 2) + i * 2)%nat))
    by lia.
  assert ((k + Z.to_nat x * (Z.to_nat nr * 2) + Z.to_nat y * 2
           = k + Z.to_nat (2 * (x * nr + y)))%nat) as ->; [|done].
  rewrite Z2Nat.inj_mul, Z2Nat.inj_add, Z2Nat.inj_mul by nia.
  change (Z.to_nat 2) with 2%nat. lia.
Qed.

Lemma resizeCanvas_seeded w ow oh :
  0 < cellSize w ≤ 2 ^ 20 → 0 ≤ ow < 2 ^ 32 → 0 ≤ oh < 2 ^ 32 →
  ∃ w', resizeCanvas random ow oh w = Some w'
    ∧ cellSize w' = cellSize w
    ∧ canvasWidth w' = ow ∧ canvasHeight w' = oh
    ∧ cols w' = ow `div` cellSize w ∧ rows w' = oh `div` cellSize w
    ∧ wf_world w' = true
    ∧ draws w' = (draws w + Z.to_nat (2 * cols w' * rows w'))%nat
    ∧ ∀ x y, 0 ≤ x < cols w' → 0 ≤ y < rows w' →
        let k := (draws w + Z.to_nat (2 * (x * rows w' + y)))%nat in
        cellAt (grid w') x y
        = Some (mkCell (if flt (random k) lit_0_35 then 1 else 0)
                       (getRandomColor random (S k)) 0).
Proof.
  intros Hcs Hw Hh. unfold resizeCanvas.
  pose proof (divide_floor ow (cellSize w) Hw ltac:(lia) ltac:(lia)) as Hqc.
  pose proof (divide_floor oh (cellSize w) Hh ltac:(lia) ltac:(lia)) as Hqr.
  destruct (divide ow (cellSize w)) as [qc|]; [|done].
  destruct (divide oh (cellSize w)) as [qr|]; [|done].
  simpl in Hqc, Hqr |- *. injection Hqc as Hqc. injection Hqr as Hqr.
  rewrite Hqc, Hqr.
  destruct (createGrid_cells (ow `div` cellSize w) (oh `div` cellSize w) (draws w))
    as (g & -> & Hwf & Hcells); [apply Z.div_pos; lia..|].
  simpl. eexists. split; [done|]. simpl. repeat split; [done|]. exact Hcells.
Qed.

(** X1. With a cell size of ordinary magnitude, resizeCanvas returns; the
    grid has [offsetWidth / cellSize] columns and [offsetHeight / cellSize]
    rows (rounded down), and the cell (x, y) is seeded from the two values
    of the random stream at position [2 * (x * rows + y)] after the
    current one: alive when the first is below 0.35, coloured by the
    second, without fade. *)
Theorem resizeCanvas_reseeds w ow oh :
  0 < cellSize w ≤ 2 ^ 20 → 0 ≤ ow < 2 ^ 32 → 0 ≤ oh < 2 ^ 32 →
  ∃ w', resizeCanvas random ow oh w = Some w'
    ∧ cellSize w' = cellSize w
    ∧ canvasWidth w' = ow ∧ canvasHeight w' = oh
    ∧ cols w' = ow `div` cellSize w ∧ rows w' = oh `div` cellSize w
    ∧ wf_world w' = true
    ∧ draws w' = (draws w + Z.to_nat (2 * cols w' * rows w'))%nat
    ∧ ∀ x y, 0 ≤ x < cols w' → 0 ≤ y < rows w' →
        let k := (draws w + Z.to_nat (2 * (x * rows w' + y)))%nat in
        cellAt (grid w') x y
        = Some (mkCell (if flt (random k) lit_0_35 then 1 else 0)
                       (getRandomColor random (S k)) 0).
Proof. exact (resizeCanvas_seeded w ow oh). Qed.

(** X2. A negative cell size is passed on to the grid allocation: on a
    canvas of width 0 start-up returns with an empty grid, on any wider
    canvas it throws. *)
Theorem startGameOfLife_negative_cellSize ow oh z :
  - 2 ^ 20 ≤ z < 0 → 0 ≤ ow < 2 ^ 32 → 0 ≤ oh < 2 ^ 32 →
  (ow = 0 → ∃ w, startGameOfLife random ow oh (Given z) = Some w
                 ∧ cellSize w = z ∧ cols w = 0 ∧ grid w = [])
  ∧ (0 < ow → startGameOfLife random ow oh (Given z) = None).
Proof.
  intros Hz Hw Hh. unfold startGameOfLife, resizeCanvas. simpl.
  destruct (Z.eqb_spec z 0); [lia|]. simpl.
  pose proof (divide_floor ow z Hw ltac:(lia) ltac:(lia)) as Hqc.
  pose proof (divide_floor oh z Hh ltac:(lia) ltac:(lia)) as Hqr.
  destruct (divide ow z) as [qc|]; [|done].
  destruct (divide oh z) as [qr|]; [|done].
  simpl in Hqc, Hqr |- *. injection Hqc as Hqc. injection Hqr as Hqr.
  rewrite Hqc, Hqr.
  split.
  - intros ->. rewrite Z.div_0_l by lia. unfold createGrid. simpl. eauto.
  - intros Hpos. unfold createGrid.
    assert (ow `div` z < 0) as Hneg.
    { rewrite <- Z.div_opp_opp by lia.
      apply Z.div_lt_upper_bound; lia. }
    by destruct (Z.ltb_spec (ow `div` z) 0); [|lia].
Qed.
End Seeding.

(** ** Cells stay well-formed and no handler throws *)

Lemma cellAt_in_range g nc nr x y c :
  wf_grid g nc nr = true → cellAt g x y = Some c →
  0 ≤ x < nc ∧ 0 ≤ y < nr.
Proof.
  intros Hwf Hc. apply wf_grid_inv in Hwf as (_ & _ & Hlen & Hcol).
  unfold cellAt, at_index in Hc.
  destruct (Z.leb_spec 0 x); [|done].
  destruct (g !! Z.to_nat x) as [column|] eqn:Hx; [|done]. simpl in Hc.
  destruct (Z.leb_spec 0 y); [|done].
  pose proof (lookup_lt_Some _ _ _ Hx). pose proof (lookup_lt_Some _ _ _ Hc).
  assert (Z.of_nat (length column) = nr)
    by (apply Hcol; by eapply list_elem_of_lookup_2).
  lia.
Qed.

Lemma grid_ok_iff g :
  grid_ok g = true ↔ ∀ x y c, cellAt g x y = Some c → cell_ok c = true.
Proof.
  unfold grid_ok. rewrite forallb_forall. split.
  - intros Hall x y c Hc. unfold cellAt, at_index in Hc.
    destruct (Z.leb_spec 0 x); [|done].
    destruct (g !! Z.to_nat x) as [column|] eqn:Hx; [|done]. simpl in Hc.
    destruct (Z.leb_spec 0 y); [|done].
    assert (In column g) as Hin
      by (apply list_elem_of_In; by eapply list_elem_of_lookup_2).
    specialize (Hall _ Hin). rewrite forallb_forall in Hall. apply Hall.
    apply list_elem_of_In. by eapply list_elem_of_lookup_2.
  - intros Hall column Hin. apply forallb_forall. intros c Hc.
    apply list_elem_of_In, list_elem_of_lookup in Hin as [i Hi].
    apply list_elem_of_In, list_elem_of_lookup in Hc as [j Hj].
    apply (Hall (Z.of_nat i) (Z.of_nat j)). unfold cellAt, at_index.
    destruct (Z.leb_spec 0 (Z.of_nat i)); [|lia].
    destruct (Z.leb_spec 0 (Z.of_nat j)); [|lia].
    rewrite !Nat2Z.id, Hi. simpl. done.
Qed.

Lemma cell_ok_inv c :
  cell_ok c = true ↔
  (alive c = 0 ∨ alive c = 1) ∧ 0 ≤ fade c ≤ 10 ∧ (alive c = 1 → fade c = 0).
Proof.
  unfold cell_ok.
  rewrite !andb_true_iff, !orb_true_iff, !Z.eqb_eq, !Z.leb_le. lia.
Qed.

Lemma decayed_ok c : cell_ok c = true → cell_ok (decayed c) = true.
Proof.
  rewrite !cell_ok_inv. unfold decayed.
  destruct (Z.eqb_spec (alive c) 0); simpl; [|done].
  destruct (Z.ltb_spec 0 (fade c)); simpl; lia.
Qed.

Lemma next_cell_ok c0 n fresh c :
  cell_ok c = true → cell_ok (next_cell c0 n fresh c).1 = true.
Proof.
  rewrite !cell_ok_inv. unfold next_cell.
  destruct (alive c0 =? 1); [destruct ((n <? 2) || (3 <? n))|destruct (n =? 3)];
    simpl; lia.
Qed.

Section RunSafety.
Variable random : nat → double.

Lemma updateGrid_steady w :
  steady w → ∃ w', updateGrid random w = Some w' ∧ steady w'
                   ∧ lastUpdateTime w' = lastUpdateTime w.
Proof.
  intros (Hwf & Hok & Hcs).
  destruct (updateGrid_spec random w Hwf)
    as (w' & Hup & Hwf' & Hcols & Hrows & _ & Hcells).
  destruct (updateGrid_frame random _ _ Hup) as (g & k & Hw').
  exists w'. split; [done|]. split; [|by subst w'].
  split; [done|]. split; [|by subst w'].
  apply grid_ok_iff. intros x y c' Hc'.
  destruct (cellAt_in_range _ _ _ _ _ _ Hwf' Hc') as [Hx Hy].
  rewrite Hcols in Hx. rewrite Hrows in Hy.
  destruct (cellAt_Some _ _ _ x y Hwf Hx Hy) as [c Hc].
  pose proof (countNeighbors_sum _ _ _ x y Hwf Hx Hy) as Hn.
  destruct (Hcells x y c _ Hx Hy Hc Hn) as (j & _ & _ & Hcell).
  rewrite Hcell in Hc'. injection Hc' as <-.
  apply next_cell_ok. by eapply grid_ok_iff.
Qed.

Lemma drawGrid_steady w :
  steady w → ∃ w' ps, drawGrid w = Some (w', ps) ∧ steady w'
                      ∧ lastUpdateTime w' = lastUpdateTime w.
Proof.
  intros (Hwf & Hok & Hcs).
  destruct (drawGrid_spec w Hwf) as (w' & ps & Hdraw & Hwf' & Hcols & Hrows & Hcells).
  destruct (drawGrid_frame _ _ _ Hdraw) as (g & Hw').
  exists w', ps. split; [done|]. split; [|by subst w'].
  split; [done|]. split; [|by subst w'].
  apply grid_ok_iff. intros x y c' Hc'.
  destruct (cellAt_in_range _ _ _ _ _ _ Hwf' Hc') as [Hx Hy].
  rewrite Hcols in Hx. rewrite Hrows in Hy.
  destruct (cellAt_Some _ _ _ x y Hwf Hx Hy) as [c Hc].
  rewrite (Hcells x y c Hx Hy Hc) in Hc'. injection Hc' as <-.
  apply decayed_ok. by eapply grid_ok_iff.
Qed.

Lemma gameLoop_steady t w :
  steady w → ∃ w' tr, gameLoop random t w = Some (w', tr) ∧ steady w'.
Proof.
  intros Hst. unfold gameLoop.
  set (w0 := if lastUpdateTime w =? 0 then with_lastUpdateTime t w else w).
  assert (Hst0 : steady w0) by (unfold w0; by destruct (lastUpdateTime w =? 0)).
  destruct (updateInterval <=? t - lastUpdateTime w0).
  - destruct (updateGrid_steady w0 Hst0) as (w1 & -> & Hst1 & _). simpl.
    destruct (drawGrid_steady (with_lastUpdateTime t w1) Hst1)
      as (w2 & ps & -> & Hst2 & _).
    simpl. eauto.
  - simpl. destruct (drawGrid_steady w0 Hst0) as (w2 & ps & -> & Hst2 & _).
    simpl. eauto.
Qed.

Lemma toggleCell_steady p w :
  steady w → ∃ w' tr, toggleCell random p w = Some (w', tr) ∧ steady w'.
Proof.
  intros (Hwf & Hok & Hcs). unfold toggleCell.
  destruct (toggle_target w p) as [[col row]|] eqn:Ht; [|by eexists _, _].
  apply toggle_target_Some in Ht as (_ & [Hc Hr] & _).
  destruct (cellAt_Some (grid w) (cols w) (rows w) col row Hwf Hc Hr) as [c Hcell].
  assert (Hact : (match dragAction w with
                  | Some a => Some a
                  | None => cell ← cellAt (grid w) col row;
                            Some (if negb (alive cell =? 0) then Remove else Add)
                  end) = Some (stroke_action w c)).
  { unfold stroke_action. destruct (dragAction w); [done|]. by rewrite Hcell. }
  rewrite Hact. cbn [mbind option_bind].
  assert (Hfin : ∀ f g k, cell_ok (f c) = true →
            update_cell (grid w) col row f = Some g →
            wf_grid g (cols w) (rows w) = true →
            cellAt g col row = Some (f c) →
            (∀ x' y', (x', y') ≠ (col, row) → cellAt g x' y' = cellAt (grid w) x' y') →
            steady (with_grid g k
                      (with_drag (isDragging w) (Some (stroke_action w c))
                         ({[cell_key col row]} ∪ touchedCells w) w))).
  { intros f g k Hfc _ Hwfg Hcg Hother. split; [done|]. split; [|done].
    apply grid_ok_iff. intros x y c' Hc'. simpl in Hc'.
    destruct (decide ((x, y) = (col, row))) as [[= -> ->]|Hne].
    - rewrite Hcg in Hc'. by injection Hc' as <-.
    - rewrite Hother in Hc' by done. by eapply grid_ok_iff. }
  destruct (stroke_action w c).
  - destruct (update_cell_spec (grid w) (cols w) (rows w) col row
                (set_fade 0 ∘ set_color (getRandomColor random (draws w))
                   ∘ set_alive 1) c Hwf Hcell)
      as (g & Hup & Hwfg & Hcg & Hother).
    rewrite Hup. simpl. eexists _, _. split; [done|].
    eapply Hfin; [|exact Hup|exact Hwfg|exact Hcg|exact Hother]. done.
  - destruct (update_cell_spec (grid w) (cols w) (rows w) col row
                (set_fade 10 ∘ set_alive 0) c Hwf Hcell)
      as (g & Hup & Hwfg & Hcg & Hother).
    rewrite Hup. simpl. eexists _, _. split; [done|].
    eapply Hfin; [|exact Hup|exact Hwfg|exact Hcg|exact Hother]. done.
Qed.

Lemma resizeCanvas_steady ow oh w :
  steady w → 0 ≤ ow < 2 ^ 32 → 0 ≤ oh < 2 ^ 32 →
  ∃ w', resizeCanvas random ow oh w = Some w' ∧ steady w'.
Proof.
  intros (_ & _ & Hcs) Hw Hh.
  destruct (resizeCanvas_seeded random w ow oh Hcs Hw Hh)
    as (w' & Hres & Hcs' & _ & _ & _ & _ & Hwf' & _ & Hcells).
  exists w'. split; [done|]. split; [done|]. split; [|by rewrite Hcs'].
  apply grid_ok_iff. intros x y c Hc.
  destruct (cellAt_in_range _ _ _ _ _ _ Hwf' Hc) as [Hx Hy].
  rewrite (Hcells x y Hx Hy) in Hc. injection Hc as <-.
  unfold cell_ok. simpl. by destruct (flt _ _).
Qed.

Lemma handle_steady e w :
  steady w → event_ok e = true →
  ∃ w' tr, handle random e w = Some (w', tr) ∧ steady w'.
Proof.
  intros Hst He. destruct e as [t|p|p| |p|p| |ow oh]; simpl.
  - by apply gameLoop_steady.
  - by apply toggleCell_steady.
  - unfold gestureMove. destruct (isDragging w); [|by eexists _, _].
    by apply toggleCell_steady.
  - by eexists _, _.
  - by apply toggleCell_steady.
  - unfold gestureMove. destruct (isDragging w); [|by eexists _, _].
    by apply toggleCell_steady.
  - by eexists _, _.
  - simpl in He. rewrite !andb_true_iff, !Z.leb_le, !Z.ltb_lt in He.
    destruct (resizeCanvas_steady ow oh w Hst) as (w' & -> & Hst'); [lia..|].
    simpl. eauto.
Qed.

Lemma run_steady es : ∀ w,
  steady w → forallb event_ok es = true →
  ∃ w' tr, run random es w = Some (w', tr) ∧ steady w'.
Proof.
  induction es as [|e es IH]; intros w Hst Hes; simpl; [by eexists _, _|].
  simpl in Hes. apply andb_true_iff in Hes as [He Hes].
  destruct (handle_steady e w Hst He) as (w1 & tr1 & -> & Hst1). simpl.
  destruct (IH w1 Hst1 Hes) as (w2 & tr2 & -> & Hst2). simpl. eauto.
Qed.

Lemma startGameOfLife_steady ow oh o :
  0 < effective_cellSize o ≤ 2 ^ 20 → 0 ≤ ow < 2 ^ 32 → 0 ≤ oh < 2 ^ 32 →
  ∃ w, startGameOfLife random ow oh o = Some w ∧ steady w.
Proof.
  intros Hcs Hw Hh. unfold startGameOfLife.
  set (w0 := mkWorld (effective_cellSize o) 0 0 0 0 [] false None ∅ 0 0).
  destruct (resizeCanvas_seeded random w0 ow oh Hcs Hw Hh)
    as (w' & Hres & Hcs' & _ & _ & _ & _ & Hwf' & _ & Hcells).
  exists w'. split; [done|]. split; [done|]. split; [|by rewrite Hcs'].
  apply grid_ok_iff. intros x y c Hc.
  destruct (cellAt_in_range _ _ _ _ _ _ Hwf' Hc) as [Hx Hy].
  rewrite (Hcells x y Hx Hy) in Hc. injection Hc as <-.
  unfold cell_ok. simpl. by destruct (flt _ _).
Qed.

(** X3. Started with a positive cell size, the program never throws:
    start-up returns, and so does every handler on any sequence of frames,
    presses, moves, releases and resizes after it. *)
Theorem program_never_throws ow oh o es :
  0 < effective_cellSize o ≤ 2 ^ 20 → 0 ≤ ow < 2 ^ 32 → 0 ≤ oh < 2 ^ 32 →
  forallb event_ok es = true →
  ∃ w0 w tr, startGameOfLife random ow oh o = Some w0
    ∧ run random es w0 = Some (w, tr)
    ∧ wf_world w = true.
Proof.
  intros Hcs Hw Hh Hes.
  destruct (startGameOfLife_steady ow oh o Hcs Hw Hh) as (w0 & Hstart & Hst0).
  destruct (run_steady es w0 Hst0 Hes) as (w & tr & Hrun & Hwf & _).
  eauto 10.
Qed.

(** X4. Every cell of every grid the program reaches has [alive] 0 or 1
    and a fade between 0 and 10, and a live cell has fade 0. *)
Theorem reachable_cells_ok ow oh o es w0 w tr x y c :
  0 < effective_cellSize o ≤ 2 ^ 20 → 0 ≤ ow < 2 ^ 32 → 0 ≤ oh < 2 ^ 32 →
  forallb event_ok es = true →
  startGameOfLife random ow oh o = Some w0 →
  run random es w0 = Some (w, tr) →
  cellAt (grid w) x y = Some c →
  (alive c = 0 ∨ alive c = 1) ∧ 0 ≤ fade c ≤ 10 ∧ (alive c = 1 → fade c = 0).
Proof.
  intros Hcs Hw Hh Hes Hstart Hrun Hc.
  destruct (startGameOfLife_steady ow oh o Hcs Hw Hh) as (w0' & Hstart' & Hst0).
  rewrite Hstart in Hstart'. injection Hstart' as <-.
  destruct (run_steady es w0 Hst0 Hes) as (w' & tr' & Hrun' & _ & Hok & _).
  rewrite Hrun in Hrun'. injection Hrun' as <- <-.
  apply cell_ok_inv. by eapply grid_ok_iff.
Qed.
End RunSafety.

(** ** The degenerate grid *)

Lemma for_each_no_rows {S} (xs : list Z) (body : Z → Z → S → option S) s :
  for_each xs (λ x, for_each [] (body x)) s = Some s.
Proof. induction xs as [|x xs IH]; simpl; [done|apply IH]. Qed.

Lemma for_cells_degenerate {S} nc nr (body : Z → Z → S → option S) s :
  nc ≤ 0 ∨ nr ≤ 0 → for_cells nc nr body s = Some s.
Proof.
  intros Hd. unfold for_cells, upto, seqZ.
  destruct Hd as [Hc|Hr].
  - by replace (Z.to_nat nc) with 0%nat by lia.
  - replace (Z.to_nat nr) with 0%nat by lia. apply for_each_no_rows.
Qed.

(** X5. When the grid has no column or no row (a canvas narrower or lower
    than one cell), the transition and the render pass leave the world as
    it is, the render pass paints nothing, and no pointer position edits
    anything. *)
Theorem degenerate_grid_noop (random : nat → double) w :
  cols w ≤ 0 ∨ rows w ≤ 0 →
  updateGrid random w = Some w
  ∧ drawGrid w = Some (w, [])
  ∧ ∀ p, toggleCell random p w = Some (w, []).
Proof.
  intros Hd. split; [|split].
  - unfold updateGrid. rewrite for_cells_degenerate by done. simpl.
    by destruct w.
  - unfold drawGrid. rewrite for_cells_degenerate by done. simpl.
    by destruct w.
  - intros p. apply toggleCell_skip.
    destruct (toggle_target w p) as [[col row]|] eqn:Ht; [|done].
    apply toggle_target_Some in Ht as (_ & [Hc Hr] & _). lia.
Qed.

(** ** Neighbourhoods on grids of ordinary size *)

Lemma mod_offset_inj n x i j :
  3 ≤ n → -1 ≤ i ≤ 1 → -1 ≤ j ≤ 1 →
  (x + i) `mod` n = (x + j) `mod` n → i = j.
Proof.
  intros Hn Hi Hj Heq.
  assert (((x + i) - (x + j)) `mod` n = 0) as Hz.
  { rewrite Zminus_mod, Heq, Z.sub_diag. apply Z.mod_0_l. lia. }
  replace (x + i - (x + j)) with (i - j) in Hz by lia.
  apply Z.mod_divide in Hz as [k Hk]; [|lia].
  destruct (Z.lt_trichotomy k 0) as [?|[->|?]]; nia.
Qed.

(** X6. On a grid with at least three columns and three rows the eight
    cells countNeighbors reads are eight different cells, and none of
    them is the cell itself. *)
Theorem toroidal_neighbors_distinct nc nr x y :
  3 ≤ nc → 3 ≤ nr → 0 ≤ x < nc → 0 ≤ y < nr →
  NoDup (toroidal_neighbors nc nr x y)
  ∧ ((x, y) ∉ toroidal_neighbors nc nr x y)
  ∧ length (toroidal_neighbors nc nr x y) = 8%nat.
Proof.
  intros Hc Hr Hx Hy.
  assert (Hnd : NoDup (wrap nc nr x y <$> (0, 0) :: neighbor_offsets)).
  { apply NoDup_fmap_2_strong; [|by compute_done].
    intros [i j] [i' j'] Hin Hin' Heq.
    assert (Hb : ∀ o : Z * Z, o ∈ (0, 0) :: neighbor_offsets →
                 (-1 ≤ o.1 ∧ o.1 ≤ 1) ∧ (-1 ≤ o.2 ∧ o.2 ≤ 1)).
    { apply Forall_forall. unfold neighbor_offsets.
      repeat (constructor; [simpl; lia|]). constructor. }
    destruct (Hb _ Hin) as [Bi Bj], (Hb _ Hin') as [Bi' Bj']. simpl in *.
    unfold wrap in Heq. simpl in Heq. injection Heq as Ex Ey.
    f_equal; [apply (mod_offset_inj nc x)|apply (mod_offset_inj nr y)];
      (done || lia). }
  rewrite fmap_cons in Hnd. apply NoDup_cons in Hnd as [Hnotin Hnd].
  unfold wrap at 1 in Hnotin. simpl in Hnotin.
  rewrite !Z.add_0_r, !Z.mod_small in Hnotin by lia.
  done.
Qed.

(** X7. On a well-formed grid whose cells have [alive] 0 or 1,
    countNeighbors returns a number from 0 to 8. *)
Theorem countNeighbors_range g nc nr x y :
  wf_grid g nc nr = true → grid_ok g = true →
  0 ≤ x < nc → 0 ≤ y < nr →
  ∃ n, countNeighbors g nc nr x y = Some n ∧ 0 ≤ n ≤ 8.
Proof.
  intros Hwf Hok Hx Hy. eexists. split; [by apply countNeighbors_sum|].
  assert (Hone : ∀ p, 0 ≤ alive_at g p ≤ 1).
  { intros [px py]. unfold alive_at. simpl.
    destruct (cellAt g px py) as [c|] eqn:Hc; simpl; [|lia].
    pose proof (proj1 (grid_ok_iff g) Hok px py c Hc) as Hcell.
    apply cell_ok_inv in Hcell. lia. }
  unfold toroidal_neighbors, neighbor_offsets, alive_sum. simpl.
  pose proof (Hone (wrap nc nr x y (-1, -1))).
  pose proof (Hone (wrap nc nr x y (-1, 0))).
  pose proof (Hone (wrap nc nr x y (-1, 1))).
  pose proof (Hone (wrap nc nr x y (0, -1))).
  pose proof (Hone (wrap nc nr x y (0, 1))).
  pose proof (Hone (wrap nc nr x y (1, -1))).
  pose proof (Hone (wrap nc nr x y (1, 0))).
  pose proof (Hone (wrap nc nr x y (1, 1))).
  lia.
Qed.

(** ** The random stream in a transition *)

Lemma births_app g nc nr ps qs :
  births g nc nr (ps ++ qs) = (births g nc nr ps + births g nc nr qs)%nat.
Proof.
  induction ps as [|p ps IH]; simpl; [done|].
  destruct (born g nc nr p); simpl; lia.
Qed.

Lemma births_take_mono g nc nr ps i j :
  (i ≤ j)%nat → (births g nc nr (take i ps) ≤ births g nc nr (take j ps))%nat.
Proof.
  intros Hij. rewrite <- (take_drop i (take j ps)), births_app.
  rewrite take_take. replace (i `min` j)%nat with i by lia. lia.
Qed.


Lemma next_cell_drawn g nc nr x y c n fresh c' :
  cellAt g x y = Some c → countNeighbors g nc nr x y = Some n →
  (next_cell c n fresh c').2 = if born g nc nr (x, y) then 1%nat else 0%nat.
Proof.
  intros Hc Hn. unfold born, next_cell. simpl. rewrite Hc, Hn.
  destruct (alive c =? 1); simpl; [by destruct ((n <? 2) || (3 <? n))|].
  by destruct (n =? 3).
Qed.


Section DrawOrder.
Variable random : nat → double.

(** The transition loop over the positions [ps]: the clone still holds the
    current cells there, and the [i]-th position sees the random stream
    advanced by the births before it. *)
Lemma update_loop_order g0 nc nr ps : ∀ next k,
  NoDup ps → (∀ x y, (x, y) ∈ ps → 0 ≤ x < nc ∧ 0 ≤ y < nr) →
  wf_grid g0 nc nr = true → wf_grid next nc nr = true →
  (∀ x y, (x, y) ∈ ps → cellAt next x y = cellAt g0 x y) →
  ∃ next', for_each ps (λ p, updateCell random g0 nc nr p.1 p.2) (next, k)
           = Some (next', (k + births g0 nc nr ps)%nat)
    ∧ wf_grid next' nc nr = true
    ∧ (∀ x y, (x, y) ∉ ps → cellAt next' x y = cellAt next x y)
    ∧ ∀ i x y c n, ps !! i = Some (x, y) →
        cellAt g0 x y = Some c → countNeighbors g0 nc nr x y = Some n →
        cellAt next' x y
        = Some (next_cell c n
                  (getRandomColor random (k + births g0 nc nr (take i ps))) c).1.
Proof.
  induction ps as [|[x0 y0] ps IH]; intros next k Hnd Hin Hwf0 Hwf Hsame.
  { exists next. simpl. rewrite Nat.add_0_r. repeat split; [done..|].
    intros i x y c n Hi. by rewrite lookup_nil in Hi. }
  apply NoDup_cons in Hnd as [Hnotin Hnd].
  destruct (Hin x0 y0) as [Hx0 Hy0]; [left|].
  destruct (cellAt_Some g0 nc nr x0 y0 Hwf0 Hx0 Hy0) as [c0 Hc0].
  pose proof (countNeighbors_sum g0 nc nr x0 y0 Hwf0 Hx0 Hy0) as Hn0.
  assert (Hnext0 : cellAt next x0 y0 = Some c0)
    by (rewrite Hsame by left; done).
  destruct (updateCell_at random g0 nc nr next k x0 y0 c0 c0 _ Hwf Hnext0 Hc0 Hn0)
    as (next1 & Hbody & Hwf1 & Hc1 & Hother).
  rewrite (next_cell_drawn g0 nc nr x0 y0 _ _ _ _ Hc0 Hn0) in Hbody.
  destruct (IH next1 (k + (if born g0 nc nr (x0, y0) then 1 else 0))%nat)
    as (next' & Hloop & Hwf' & Hout & Hcells); [done| |done|done| |].
  { intros x y Hp. apply Hin. by right. }
  { intros x y Hp. rewrite Hother; [apply Hsame; by right|].
    intros [= -> ->]. done. }
  exists next'. cbn [for_each fst snd]. rewrite Hbody. cbn [mbind option_bind].
  rewrite Hloop. split.
  { do 2 f_equal. simpl. destruct (born g0 nc nr (x0, y0)); lia. }
  split; [done|]. split.
  - intros x y Hp. rewrite Hout by (intros ?; apply Hp; by right).
    apply Hother. intros [= -> ->]. apply Hp. left.
  - intros [|i] x y c n Hi Hc Hn; simpl in Hi.
    + injection Hi as <- <-. rewrite Hout by done. rewrite Hc1.
      rewrite Hc0 in Hc. rewrite Hn0 in Hn. injection Hc as <-. injection Hn as <-.
      simpl. by rewrite Nat.add_0_r.
    + rewrite (Hcells i x y c n Hi Hc Hn). do 4 f_equal. simpl.
      destruct (born g0 nc nr (x0, y0)); lia.
Qed.

Lemma updateGrid_order w :
  wf_world w = true →
  ∃ w', updateGrid random w = Some w'
    ∧ wf_world w' = true ∧ cols w' = cols w ∧ rows w' = rows w
    ∧ w' = with_grid (grid w')
             (draws w + births (grid w) (cols w) (rows w)
                          (positions (cols w) (rows w))) w
    ∧ ∀ i x y c n, positions (cols w) (rows w) !! i = Some (x, y) →
        cellAt (grid w) x y = Some c →
        countNeighbors (grid w) (cols w) (rows w) x y = Some n →
        cellAt (grid w') x y
        = Some (next_cell c n
                  (getRandomColor random
                     (draws w + births (grid w) (cols w) (rows w)
                                  (take i (positions (cols w) (rows w))))) c).1.
Proof.
  intros Hwf. unfold wf_world in Hwf.
  destruct (update_loop_order (grid w) (cols w) (rows w)
              (positions (cols w) (rows w)) (grid w) (draws w))
    as (next' & Hloop & Hwf' & _ & Hcells);
    [apply NoDup_positions|by intros x y ?%elem_of_positions|done..|].
  unfold updateGrid. rewrite for_cells_flat, Hloop. simpl.
  eexists. split; [done|]. repeat split; [done|]. exact Hcells.
Qed.

(** X8. updateGrid draws one random colour per birth and none otherwise:
    the stream advances by the number of births, and scanning column by
    column, each born cell gets the next unused value, so two cells born
    in the same transition are coloured from different draws. *)
Theorem updateGrid_draw_order w :
  wf_world w = true →
  let ps := positions (cols w) (rows w) in
  let drawn i := (draws w + births (grid w) (cols w) (rows w) (take i ps))%nat in
  ∃ w', updateGrid random w = Some w'
    ∧ draws w' = (draws w + births (grid w) (cols w) (rows w) ps)%nat
    ∧ (∀ i x y, ps !! i = Some (x, y) →
         born (grid w) (cols w) (rows w) (x, y) = true →
         cellAt (grid w') x y
         = Some (mkCell 1 (getRandomColor random (drawn i)) 0)
         ∧ (draws w ≤ drawn i < draws w')%nat)
    ∧ (∀ i j p q, (i < j)%nat → ps !! i = Some p → ps !! j = Some q →
         born (grid w) (cols w) (rows w) p = true →
         (drawn i < drawn j)%nat).
Proof.
  intros Hwf ps drawn.
  destruct (updateGrid_order w Hwf) as (w' & Hup & _ & _ & _ & Hw' & Hcells).
  assert (Hstep : ∀ i p, ps !! i = Some p →
            born (grid w) (cols w) (rows w) p = true →
            births (grid w) (cols w) (rows w) (take (S i) ps)
            = S (births (grid w) (cols w) (rows w) (take i ps))).
  { intros i p Hi Hb. rewrite (take_S_r _ _ _ Hi), births_app. simpl.
    rewrite Hb. lia. }
  assert (Hd : draws w' = (draws w + births (grid w) (cols w) (rows w) ps)%nat)
    by (by rewrite Hw').
  exists w'. split; [done|]. split; [done|]. split.
  - intros i x y Hi Hb.
    assert (Hin : (x, y) ∈ ps) by (by eapply list_elem_of_lookup_2).
    apply elem_of_positions in Hin as [Hx Hy].
    destruct (cellAt_Some _ _ _ x y Hwf Hx Hy) as [c Hc].
    pose proof (countNeighbors_sum _ _ _ x y Hwf Hx Hy) as Hn.
    rewrite (Hcells i x y c _ Hi Hc Hn). pose proof Hb as Hb0.
    unfold born in Hb. simpl in Hb. rewrite Hc, Hn in Hb.
    apply andb_true_iff in Hb as [Hdead H3]. unfold next_cell.
    destruct (alive c =? 1); [done|]. rewrite H3. simpl.
    split; [done|]. rewrite Hd. unfold drawn.
    pose proof (Hstep i (x, y) Hi Hb0).
    pose proof (births_take_mono (grid w) (cols w) (rows w) ps (S i) (length ps)
                  ltac:(apply lookup_lt_Some in Hi; lia)) as Hmono.
    rewrite firstn_all in Hmono. lia.
  - intros i j p q Hij Hi Hj Hb. unfold drawn.
    pose proof (Hstep i p Hi Hb).
    pose proof (births_take_mono (grid w) (cols w) (rows w) ps (S i) j ltac:(lia)).
    lia.
Qed.
End DrawOrder.

(** X9. Apart from the colours of the born cells, a transition does not
    depend on the random stream: under two streams it returns grids with
    the same [alive] and [fade] everywhere and the same cell wherever no
    birth happens, and it draws the same number of values. *)
Theorem updateGrid_random_independent (r1 r2 : nat → double) w :
  wf_world w = true →
  ∃ w1 w2, updateGrid r1 w = Some w1 ∧ updateGrid r2 w = Some w2
    ∧ draws w1 = draws w2
    ∧ ∀ x y, 0 ≤ x < cols w → 0 ≤ y < rows w →
        ∃ c1 c2, cellAt (grid w1) x y = Some c1
          ∧ cellAt (grid w2) x y = Some c2
          ∧ alive c1 = alive c2 ∧ fade c1 = fade c2
          ∧ (born (grid w) (cols w) (rows w) (x, y) = false → c1 = c2).
Proof.
  intros Hwf.
  destruct (updateGrid_order r1 w Hwf) as (w1 & Hup1 & _ & _ & _ & Hw1 & Hcells1).
  destruct (updateGrid_order r2 w Hwf) as (w2 & Hup2 & _ & _ & _ & Hw2 & Hcells2).
  exists w1, w2. split; [done|]. split; [done|].
  split; [rewrite Hw1, Hw2; done|].
  intros x y Hx Hy.
  assert (Hin : (x, y) ∈ positions (cols w) (rows w))
    by (by apply elem_of_positions).
  apply list_elem_of_lookup in Hin as [i Hi].
  destruct (cellAt_Some _ _ _ x y Hwf Hx Hy) as [c Hc].
  pose proof (countNeighbors_sum _ _ _ x y Hwf Hx Hy) as Hn.
  eexists _, _. split; [by apply (Hcells1 i x y c _ Hi Hc Hn)|].
  split; [by apply (Hcells2 i x y c _ Hi Hc Hn)|].
  unfold born, next_cell. simpl. rewrite Hc, Hn.
  destruct (alive c =? 1); simpl; [by destruct ((_ <? 2) || _)|].
  by destruct (_ =? 3).
Qed.


(** ** What the render pass paints *)

Lemma omap_glyph_ext g1 g2 (ps : list (Z * Z)) :
  (∀ x y, (x, y) ∈ ps → cellAt g1 x y = cellAt g2 x y) →
  omap (glyph_of g1) ps = omap (glyph_of g2) ps.
Proof.
  induction ps as [|[x y] ps IH]; intros Heq; [done|].
  change ((x, y) :: ps) with ([(x, y)] ++ ps). rewrite !omap_app. f_equal.
  - assert (glyph_of g1 (x, y) = glyph_of g2 (x, y)) as Hg.
    { unfold glyph_of. simpl. by rewrite Heq by left. }
    simpl. by rewrite Hg.
  - apply IH. intros x' y' Hin. apply Heq. by right.
Qed.

Lemma draw_loop_paints nc nr ps : ∀ g acc,
  NoDup ps → (∀ x y, (x, y) ∈ ps → 0 ≤ x < nc ∧ 0 ≤ y < nr) →
  wf_grid g nc nr = true →
  ∃ g', for_each ps (λ p, drawCell p.1 p.2) (g, acc)
        = Some (g', acc ++ omap (glyph_of g) ps)
    ∧ wf_grid g' nc nr = true
    ∧ ∀ x y, (x, y) ∉ ps → cellAt g' x y = cellAt g x y.
Proof.
  induction ps as [|[x0 y0] ps IH]; intros g acc Hnd Hin Hwf.
  { exists g. simpl. by rewrite app_nil_r. }
  apply NoDup_cons in Hnd as [Hnotin Hnd].
  destruct (Hin x0 y0) as [Hx0 Hy0]; [left|].
  destruct (cellAt_Some g nc nr x0 y0 Hwf Hx0 Hy0) as [c Hc].
  assert (Hhead : ∃ g1, drawCell x0 y0 (g, acc)
                        = Some (g1, acc ++ from_option (λ gl, [gl]) [] (glyph_of g (x0, y0)))
            ∧ wf_grid g1 nc nr = true
            ∧ ∀ x y, (x, y) ≠ (x0, y0) → cellAt g1 x y = cellAt g x y).
  { unfold drawCell, glyph_of. simpl. rewrite Hc. simpl.
    destruct (alive c =? 0); simpl; [|by exists g].
    destruct (0 <? fade c); simpl; [|exists g; by rewrite app_nil_r].
    destruct (update_cell_spec g nc nr x0 y0 (λ c, set_fade (fade c - 1) c) c Hwf Hc)
      as (g1 & -> & Hwf1 & _ & Hother).
    by exists g1. }
  destruct Hhead as (g1 & Hbody & Hwf1 & Hother).
  destruct (IH g1 (acc ++ from_option (λ gl, [gl]) [] (glyph_of g (x0, y0))))
    as (g' & Hloop & Hwf' & Hout); [done| |done|].
  { intros x y Hp. apply Hin. by right. }
  exists g'. cbn [for_each fst snd]. rewrite Hbody. cbn [mbind option_bind].
  rewrite Hloop. split.
  - do 2 f_equal. rewrite <- app_assoc. f_equal.
    rewrite (omap_glyph_ext g1 g).
    + simpl. by destruct (glyph_of g (x0, y0)).
    + intros x y Hp. apply Hother. intros [= -> ->]. done.
  - split; [done|]. intros x y Hp.
    rewrite Hout by (intros ?; apply Hp; by right).
    apply Hother. intros [= -> ->]. apply Hp. left.
Qed.

(** X11. drawGrid paints, column by column and top to bottom, one solid
    glyph for each live cell and one faded glyph for each dead cell whose
    fade is positive, in the colour and with the fade the cell had before
    the pass, and nothing for the other cells. *)
Theorem drawGrid_paints w :
  wf_world w = true →
  ∃ w', drawGrid w
        = Some (w', omap (glyph_of (grid w)) (positions (cols w) (rows w))).
Proof.
  intros Hwf. unfold wf_world in Hwf.
  destruct (draw_loop_paints (cols w) (rows w) (positions (cols w) (rows w))
              (grid w) [])
    as (g' & Hloop & _); [apply NoDup_positions|by intros x y ?%elem_of_positions|done|].
  unfold drawGrid. rewrite for_cells_flat, Hloop. simpl. eauto.
Qed.

(** ** Afterglow *)

Lemma iter_decayed c n :
  Nat.iter n decayed c
  = if (alive c =? 0) && (0 <? fade c)
    then mkCell 0 (color c) (Z.max 0 (fade c - Z.of_nat n)) else c.
Proof.
  induction n as [|n IH].
  - simpl. destruct (Z.eqb_spec (alive c) 0) as [Hd|]; simpl; [|done].
    destruct (Z.ltb_spec 0 (fade c)); [|done].
    destruct c as [a col f]; simpl in *. subst. f_equal. lia.
  - rewrite Nat.iter_succ, IH. unfold decayed.
    destruct (Z.eqb_spec (alive c) 0) as [Hd|Hl]; simpl.
    + destruct (Z.ltb_spec 0 (fade c)) as [Hf|Hf]; simpl.
      * destruct (Z.ltb_spec 0 (Z.max 0 (fade c - Z.of_nat n)));
          unfold set_fade; simpl; f_equal; lia.
      * rewrite Hd. simpl. by destruct (Z.ltb_spec 0 (fade c)); [lia|].
    + by destruct (Z.eqb_spec (alive c) 0).
Qed.

Lemma draw_passes_iter n : ∀ w,
  wf_world w = true →
  ∃ w', draw_passes n w = Some w'
    ∧ wf_world w' = true ∧ cols w' = cols w ∧ rows w' = rows w
    ∧ ∀ x y c, 0 ≤ x < cols w → 0 ≤ y < rows w →
        cellAt (grid w) x y = Some c →
        cellAt (grid w') x y = Some (Nat.iter n decayed c).
Proof.
  induction n as [|n IH]; intros w Hwf.
  { exists w. simpl. repeat split; done. }
  destruct (drawGrid_spec w Hwf) as (w1 & ps & Hdraw & Hwf1 & Hc1 & Hr1 & Hcells1).
  destruct (IH w1 Hwf1) as (w' & Hp & Hwf' & Hc' & Hr' & Hcells').
  exists w'. split; [simpl; rewrite Hdraw; simpl; done|].
  split; [done|]. split; [congruence|]. split; [congruence|].
  intros x y c Hx Hy Hc. rewrite Nat.iter_succ_r.
  apply Hcells'; [lia..|]. by apply Hcells1.
Qed.

(** X12. After [n] render passes with no transition between them a dead
    cell that had fade [f > 0] has fade [max 0 (f - n)], and every other
    cell is as it was. As no reachable fade exceeds 10, ten passes put out
    every afterglow. *)
Theorem draw_passes_fade_formula w n :
  wf_world w = true →
  ∃ w', draw_passes n w = Some w'
    ∧ (∀ x y c, 0 ≤ x < cols w → 0 ≤ y < rows w →
         cellAt (grid w) x y = Some c →
         cellAt (grid w') x y
         = Some (if (alive c =? 0) && (0 <? fade c)
                 then mkCell 0 (color c) (Z.max 0 (fade c - Z.of_nat n))
                 else c))
    ∧ (grid_ok (grid w) = true → (10 ≤ n)%nat →
       ∀ x y c, 0 ≤ x < cols w → 0 ≤ y < rows w →
         cellAt (grid w) x y = Some c →
         cellAt (grid w') x y = Some (mkCell (alive c) (color c) 0)).
Proof.
  intros Hwf.
  destruct (draw_passes_iter n w Hwf) as (w' & Hp & _ & _ & _ & Hcells).
  exists w'. split; [done|]. split.
  - intros x y c Hx Hy Hc. rewrite (Hcells x y c Hx Hy Hc). by rewrite iter_decayed.
  - intros Hok Hn x y c Hx Hy Hc.
    rewrite (Hcells x y c Hx Hy Hc), iter_decayed.
    pose proof (proj1 (grid_ok_iff _) Hok x y c Hc) as Hcell.
    apply cell_ok_inv in Hcell as (Ha & Hf & Hlive).
    destruct (Z.eqb_spec (alive c) 0) as [Hd|Hl]; simpl.
    + rewrite Hd. destruct (Z.ltb_spec 0 (fade c)); [do 2 f_equal; lia|].
      destruct c as [a col f]; simpl in *. do 2 f_equal; lia.
    + destruct c as [a col f]; simpl in *. do 2 f_equal. lia.
Qed.

(** ** Strokes *)

(** X13. The key of a touched cell names the cell: two cells have the
    same key exactly when they have the same column and the same row. *)
Theorem touched_key_injective c1 r1 c2 r2 :
  cell_key c1 r1 = cell_key c2 r2 ↔ c1 = c2 ∧ r1 = r2.
Proof.
  split; [|by intros [-> ->]].
  intros Heq. apply cell_key_inj in Heq. by injection Heq.
Qed.


Section Strokes.
Variable random : nat → double.

(** All that toggleCell does when its guard lets a cell through. *)
Lemma toggleCell_result w p col row :
  wf_world w = true → toggle_target w p = Some (col, row) →
  ∃ c g, cellAt (grid w) col row = Some c
    ∧ toggleCell random p w
      = Some (with_grid g
                (match stroke_action w c with
                 | Add => S (draws w) | Remove => draws w end)
                (with_drag (isDragging w) (Some (stroke_action w c))
                   ({[cell_key col row]} ∪ touchedCells w) w),
              [Edited col row (stroke_action w c)])
    ∧ wf_grid g (cols w) (rows w) = true
    ∧ cellAt g col row = Some (stroke_cell random w (stroke_action w c) c)
    ∧ ∀ x y, (x, y) ≠ (col, row) → cellAt g x y = cellAt (grid w) x y.
Proof.
  intros Hwf Ht. pose proof Ht as Ht'.
  apply toggle_target_Some in Ht' as (_ & [Hc Hr] & _).
  destruct (cellAt_Some (grid w) (cols w) (rows w) col row Hwf Hc Hr) as [c Hcell].
  exists c. unfold toggleCell. rewrite Ht.
  assert (Hact : (match dragAction w with
                  | Some a => Some a
                  | None => cell ← cellAt (grid w) col row;
                            Some (if negb (alive cell =? 0) then Remove else Add)
                  end) = Some (stroke_action w c)).
  { unfold stroke_action. destruct (dragAction w); [done|]. by rewrite Hcell. }
  rewrite Hact. cbn [mbind option_bind].
  destruct (stroke_action w c).
  - destruct (update_cell_spec (grid w) (cols w) (rows w) col row
                (set_fade 0 ∘ set_color (getRandomColor random (draws w))
                   ∘ set_alive 1) c Hwf Hcell)
      as (g & -> & Hwfg & Hcg & Hother).
    exists g. repeat split; done.
  - destruct (update_cell_spec (grid w) (cols w) (rows w) col row
                (set_fade 10 ∘ set_alive 0) c Hwf Hcell)
      as (g & -> & Hwfg & Hcg & Hother).
    exists g. repeat split; done.
Qed.



End Strokes.

Section Sessions.
Variable random : nat → double.

(** X15. Two clicks (press and release, twice) on a cell of the grid
    restore its liveness but not the cell: both clicks edit it, with
    opposite actions; a cell that was alive ends alive with a newly drawn
    colour, a cell that was dead ends dead in that new colour with fade
    10. *)
Theorem click_twice_restores_liveness w p col row c0 :
  wf_world w = true → dragAction w = None →
  pointed_cell w p = Some (col, row) →
  0 ≤ col < cols w → 0 ≤ row < rows w →
  cellAt (grid w) col row = Some c0 →
  ∃ w', run random [MouseDown p; MouseUp; MouseDown p; MouseUp] w
        = Some (w', if alive c0 =? 0
                    then [Edited col row Add; Edited col row Remove]
                    else [Edited col row Remove; Edited col row Add])
    ∧ cellAt (grid w') col row
      = Some (if alive c0 =? 0
              then mkCell 0 (getRandomColor random (draws w)) 10
              else mkCell 1 (getRandomColor random (draws w)) 0)
    ∧ isDragging w' = false ∧ dragAction w' = None ∧ touchedCells w' = ∅.
Proof.
  intros Hwf Hnone Hp Hcol Hrow Hc0.
  cbn [run handle]. unfold gestureStart, gestureEnd.
  set (w0 := with_drag true (dragAction w) ∅ w).
  assert (Ht0 : toggle_target w0 p = Some (col, row)).
  { apply toggle_target_Some. rewrite (pointed_cell_view w0 w) by done.
    split; [done|]. split; [split; [exact Hcol|exact Hrow]|].
    apply not_elem_of_empty. }
  assert (Ha0 : stroke_action w0 c0 = if alive c0 =? 0 then Add else Remove).
  { unfold stroke_action. change (dragAction w0) with (dragAction w).
    rewrite Hnone. by destruct (alive c0 =? 0). }
  destruct (toggleCell_result random w0 p col row Hwf Ht0)
    as (c & g1 & Hc & Htog & Hwf1 & Hcell1 & _).
  change (grid w0) with (grid w) in Hc. rewrite Hc0 in Hc. injection Hc as <-.
  rewrite Ha0 in Htog, Hcell1. rewrite Htog. cbn [mbind option_bind].
  clear Htog Ha0.
  destruct (alive c0 =? 0).
  all: match goal with
       | |- context [toggleCell _ _ ?w3] =>
           assert (Ht3 : toggle_target w3 p = Some (col, row));
           [ apply toggle_target_Some;
             rewrite (pointed_cell_view w3 w) by done;
             split; [done|]; split; [split; [exact Hcol|exact Hrow]|];
             apply not_elem_of_empty
           | destruct (toggleCell_result random w3 p col row Hwf1 Ht3)
               as (c1 & g3 & Hc1 & Htog3 & Hwf3 & Hcell3 & _);
             change (grid w3) with g1 in Hc1;
             rewrite Hcell1 in Hc1; injection Hc1 as <-;
             rewrite Htog3; cbn [mbind option_bind];
             eexists; split; [reflexivity|];
             split; [simpl; rewrite Hcell3; reflexivity|done] ]
       end.
Qed.

Lemma gameLoop_keeps_session t w w' tr :
  gameLoop random t w = Some (w', tr) →
  isDragging w' = isDragging w ∧ dragAction w' = dragAction w
  ∧ touchedCells w' = touchedCells w ∧ edited_cells tr = [].
Proof.
  unfold gameLoop.
  set (w0 := if lastUpdateTime w =? 0 then with_lastUpdateTime t w else w).
  assert (Hs0 : isDragging w0 = isDragging w ∧ dragAction w0 = dragAction w
                ∧ touchedCells w0 = touchedCells w)
    by (unfold w0; by destruct (lastUpdateTime w =? 0)).
  destruct Hs0 as (<- & <- & <-).
  destruct (updateInterval <=? t - lastUpdateTime w0).
  - destruct (updateGrid random w0) as [w1|] eqn:Hup; simpl; [|done].
    destruct (updateGrid_frame random _ _ Hup) as (g & k & ->).
    destruct (drawGrid _) as [[w2 ps]|] eqn:Hdraw; simpl; [|done].
    destruct (drawGrid_frame _ _ _ Hdraw) as (g2 & ->).
    by intros [= <- <-].
  - simpl. destruct (drawGrid w0) as [[w2 ps]|] eqn:Hdraw; simpl; [|done].
    destruct (drawGrid_frame _ _ _ Hdraw) as (g2 & ->).
    by intros [= <- <-].
Qed.

Lemma resizeCanvas_keeps_session ow oh w w' :
  resizeCanvas random ow oh w = Some w' →
  isDragging w' = isDragging w ∧ dragAction w' = dragAction w
  ∧ touchedCells w' = touchedCells w ∧ lastUpdateTime w' = lastUpdateTime w.
Proof.
  unfold resizeCanvas.
  destruct (divide ow (cellSize w)) as [qc|]; simpl; [|done].
  destruct (divide oh (cellSize w)) as [qr|]; simpl; [|done].
  destruct (createGrid _ _ _ _) as [[g k]|]; simpl; [|done].
  by intros [= <-].
Qed.

(** X16. Without a press nothing is edited: from a world that is not
    dragging, moves, releases, frames and resizes write no cell and leave
    it not dragging. *)
Theorem no_press_no_edit evs : ∀ w w' tr,
  isDragging w = false →
  forallb (λ e, negb (is_press e)) evs = true →
  run random evs w = Some (w', tr) →
  edited_cells tr = [] ∧ isDragging w' = false.
Proof.
  induction evs as [|e evs IH]; intros w w' tr Hdrag Hevs Hrun.
  { simpl in Hrun. by injection Hrun as <- <-. }
  simpl in Hevs. apply andb_true_iff in Hevs as [He Hevs].
  simpl in Hrun.
  destruct (handle random e w) as [[w1 tr1]|] eqn:Hh; simpl in Hrun; [|done].
  destruct (run random evs w1) as [[w2 tr2]|] eqn:Hrest; simpl in Hrun; [|done].
  injection Hrun as <- <-.
  assert (Hstep : edited_cells tr1 = [] ∧ isDragging w1 = false).
  { destruct e as [t|p|p| |p|p| |ow oh]; simpl in Hh, He; try done.
    - apply gameLoop_keeps_session in Hh as (-> & _ & _ & ->). done.
    - unfold gestureMove in Hh. rewrite Hdrag in Hh. by injection Hh as <- <-.
    - by injection Hh as <- <-.
    - unfold gestureMove in Hh. rewrite Hdrag in Hh. by injection Hh as <- <-.
    - by injection Hh as <- <-.
    - destruct (resizeCanvas random ow oh w) as [w1'|] eqn:Hres; simpl in Hh; [|done].
      injection Hh as <- <-.
      apply resizeCanvas_keeps_session in Hres as (-> & _). done. }
  destruct Hstep as [Hed1 Hdrag1].
  destruct (IH w1 w2 tr2 Hdrag1 Hevs Hrest) as [Hed2 Hdrag2].
  rewrite edited_cells_app, Hed1, Hed2. done.
Qed.

(** X17. A resize does not end the stroke in progress: after a press
    that edited the cell (col, row) and a resize, the world is still
    dragging with the same action and the same touched keys, so a move
    onto the cell (col, row) of the new grid edits nothing. *)
Theorem resize_keeps_stroke p ow oh p' w w1 w2 col row a :
  handle random (MouseDown p) w = Some (w1, [Edited col row a]) →
  handle random (Resize ow oh) w1 = Some (w2, []) →
  pointed_cell w2 p' = Some (col, row) →
  isDragging w2 = true ∧ dragAction w2 = Some a
  ∧ cell_key col row ∈ touchedCells w2
  ∧ handle random (MouseMove p') w2 = Some (w2, []).
Proof.
  intros Hpress Hresize Hp'.
  assert (Hw1 : isDragging w1 = true ∧ dragAction w1 = Some a
                ∧ cell_key col row ∈ touchedCells w1).
  { simpl in Hpress. unfold gestureStart, toggleCell in Hpress.
    destruct (toggle_target _ p) as [[c r]|]; [|done].
    destruct (match dragAction _ with Some _ => _ | None => _ end) as [act|];
      simpl in Hpress; [|done].
    destruct (match act with Add => _ | Remove => _ end) as [[g k]|];
      simpl in Hpress; [|done].
    injection Hpress as <- -> -> ->. simpl.
    split; [done|]. split; [done|]. apply elem_of_union_l. by apply elem_of_singleton. }
  simpl in Hresize.
  destruct (resizeCanvas random ow oh w1) as [w2'|] eqn:Hres; simpl in Hresize; [|done].
  injection Hresize as ->.
  apply resizeCanvas_keeps_session in Hres as (Hd & Ha & Ht & _).
  destruct Hw1 as (Hd1 & Ha1 & Ht1).
  split; [congruence|]. split; [congruence|]. split; [by rewrite Ht|].
  simpl. unfold gestureMove. rewrite Hd, Hd1. apply toggleCell_skip.
  destruct (toggle_target w2 p') as [[c r]|] eqn:Htt; [exfalso|done].
  apply toggle_target_Some in Htt as (Hp & _ & Hfresh).
  rewrite Hp' in Hp. injection Hp as <- <-. apply Hfresh. by rewrite Ht.
Qed.
End Sessions.

(** ** The transition is not starved *)

Section Cadence.
Variable random : nat → double.


End Cadence.

(** ** Pixels and cells *)

(** The rounded quotient of two positive 32-bit numbers. *)
Lemma quotient_rounding x W :
  0 < x < 2 ^ 32 → 0 < W < 2 ^ 32 →
  ∃ q, round64 x W 0 = Dbl (rne (x * 2 ^ (- q)) W) q
    ∧ -84 ≤ q ≤ -21
    ∧ q ≤ Z.log2 x - Z.log2 W - 52
    ∧ 2 ^ 51 ≤ rne (x * 2 ^ (- q)) W.
Proof.
  intros Hx HW. unfold round64. rewrite Z.add_0_r.
  pose proof (ilog2q_range x W) as Hp.
  assert (0 ≤ Z.log2 x < 32)
    by (split; [apply Z.log2_nonneg|apply Z.log2_lt_pow2; lia]).
  assert (0 ≤ Z.log2 W < 32)
    by (split; [apply Z.log2_nonneg|apply Z.log2_lt_pow2; lia]).
  set (q := Z.max (ilog2q x W - 52) (-1074)).
  assert (Hq : q = ilog2q x W - 52) by lia.
  exists q. destruct (Z.leb_spec 0 (0 - q)); [|lia].
  replace (0 - q) with (- q) by lia.
  split; [done|]. split; [lia|]. split; [lia|].
  pose proof (Z.log2_spec x ltac:(lia)) as [Hxlo _].
  pose proof (Z.log2_spec W ltac:(lia)) as [_ HWhi].
  assert (HT : 2 ^ (52 + Z.log2 W - Z.log2 x) ≤ 2 ^ (- q))
    by (apply Z.pow_le_mono_r; lia).
  assert (Hprod : 2 ^ Z.log2 x * 2 ^ (52 + Z.log2 W - Z.log2 x)
                  = 2 ^ 51 * 2 ^ Z.succ (Z.log2 W)).
  { rewrite <- !Z.pow_add_r by lia. f_equal. lia. }
  assert (0 < 2 ^ (- q)) by (apply Z.pow_pos_nonneg; lia).
  assert (0 < 2 ^ (52 + Z.log2 W - Z.log2 x)) by (apply Z.pow_pos_nonneg; lia).
  etrans; [|apply rne_lower; nia].
  apply Z.div_le_lower_bound; [lia|]. nia.
Qed.

(** The rounded product of a positive significand with an integer. *)
Lemma product_rounding n2 k :
  0 < n2 → -1000 ≤ k ≤ 0 →
  round64 n2 1 k
  = Dbl (if 0 <=? 52 - Z.log2 n2 then n2 * 2 ^ (52 - Z.log2 n2)
         else rne n2 (2 ^ (Z.log2 n2 - 52)))
        (Z.log2 n2 + k - 52).
Proof.
  intros Hn Hk. unfold round64. rewrite (ilog2q_1 n2 Hn).
  pose proof (Z.log2_nonneg n2).
  replace (Z.max (Z.log2 n2 + k - 52) (-1074)) with (Z.log2 n2 + k - 52) by lia.
  replace (k - (Z.log2 n2 + k - 52)) with (52 - Z.log2 n2) by lia.
  destruct (Z.leb_spec 0 (52 - Z.log2 n2)).
  - by rewrite rne_exact.
  - rewrite Z.mul_1_l. do 3 f_equal. lia.
Qed.

(** [Math.floor] of the rounded product [m * n * 2 ^ k] for a positive
    significand [m]: the three shapes the result takes. *)
Lemma floor_product m n k :
  0 < m → 0 < n → -1000 ≤ k ≤ 0 →
  let L := Z.log2 (m * n) in
  Math_floor (fmul (Dbl m k) (of_int n))
  = if 0 <=? 52 - L then (m * n) `div` 2 ^ (- k)
    else if 0 <=? L + k - 52
         then rne (m * n) (2 ^ (L - 52)) * 2 ^ (L + k - 52)
         else rne (m * n) (2 ^ (L - 52)) `div` 2 ^ (52 - L - k).
Proof.
  intros Hm Hn Hk L. unfold fmul, of_int, fl. simpl.
  assert (Hmn : 0 < m * n) by nia.
  destruct (Z.eqb_spec (m * n) 0); [lia|].
  destruct (Z.ltb_spec (m * n) 0); [lia|].
  rewrite Z.add_0_r, product_rounding by lia. fold L.
  pose proof (Z.log2_nonneg (m * n)). fold L in H.
  unfold Math_floor. simpl.
  destruct (Z.leb_spec 0 (52 - L)).
  - destruct (Z.leb_spec 0 (L + k - 52)).
    + assert (L = 52 ∧ k = 0) as [HL ->] by lia. rewrite HL. simpl.
      by rewrite Z.div_1_r, !Z.mul_1_r.
    + replace (- (L + k - 52)) with (- k + (52 - L)) by lia.
      rewrite Z.pow_add_r by lia.
      assert (0 < 2 ^ (52 - L)) by (apply Z.pow_pos_nonneg; lia).
      by rewrite Z.div_mul_cancel_r by lia.
  - destruct (Z.leb_spec 0 (L + k - 52)); [done|].
    do 2 f_equal. lia.
Qed.

(** A pixel of the canvas lies in a column of the grid. *)
Lemma pixel_inside x W n :
  0 ≤ x < W → W < 2 ^ 32 → 0 < n ≤ 2 ^ 32 →
  ∃ c, pixel_to_index x W n = Some c ∧ 0 ≤ c < n.
Proof.
  intros Hx HW Hn. unfold pixel_to_index.
  destruct (Z.leb_spec W 0); [lia|]. eexists. split; [done|].
  destruct (decide (x = 0)) as [->|Hx0].
  { change (Math_floor (fmul (fdiv_int 0 W) (of_int n))) with 0. lia. }
  unfold fdiv_int, fl.
  destruct (Z.eqb_spec x 0); [done|]. destruct (Z.ltb_spec x 0); [lia|].
  destruct (quotient_rounding x W ltac:(lia) ltac:(lia))
    as (q & -> & Hq & Hqlog & Hbig).
  set (T := 2 ^ (- q)) in *. set (M := rne (x * T) W) in *.
  assert (Hlog : Z.log2 x ≤ Z.log2 W) by (apply Z.log2_le_mono; lia).
  assert (HT : 2 ^ 52 ≤ T) by (apply Z.pow_le_mono_r; lia).
  change (2 ^ 52) with 4503599627370496 in HT.
  change (2 ^ 51) with 2251799813685248 in Hbig.
  change (2 ^ 32) with 4294967296 in *.
  destruct (rne_bounds (x * T) W ltac:(nia) ltac:(lia)) as [_ Hup].
  fold M in Hup.
  assert (Hgap : 2 * T - W ≤ 2 * W * (T - M)) by nia.
  assert (HMT : M < T) by nia.
  rewrite floor_product by lia. cbv zeta.
  set (L := Z.log2 (M * n)).
  pose proof (Z.log2_spec (M * n) ltac:(nia)) as [HLlo HLhi]. fold L in HLlo, HLhi.
  pose proof (Z.log2_nonneg (M * n)) as HL0. fold L in HL0.
  assert (HLq : L + q - 52 < -20).
  { assert (L < 32 - q); [|lia].
    apply (Z.pow_lt_mono_r_iff 2); [lia|lia|].
    replace (32 - q) with (32 + - q) by lia. rewrite Z.pow_add_r by lia.
    fold T. change (2 ^ 32) with 4294967296. nia. }
  destruct (Z.leb_spec 0 (52 - L)).
  - fold T. split; [apply Z.div_pos; nia|].
    apply Z.div_lt_upper_bound; [lia|]. nia.
  - destruct (Z.leb_spec 0 (L + q - 52)); [lia|].
    set (D := 2 ^ (L - 52)). set (T2 := 2 ^ (52 - L - q)).
    assert (HD : 0 < D) by (apply Z.pow_pos_nonneg; lia).
    assert (HT2 : 0 < T2) by (apply Z.pow_pos_nonneg; lia).
    assert (HDT : D * T2 = T).
    { unfold D, T2, T. rewrite <- Z.pow_add_r by lia. f_equal. lia. }
    assert (HDL : D * 4503599627370496 = 2 ^ L).
    { unfold D. change 4503599627370496 with (2 ^ 52).
      rewrite <- Z.pow_add_r by lia. f_equal. lia. }
    destruct (rne_bounds (M * n) D ltac:(nia) HD) as [HM2 Hup2].
    set (M2 := rne (M * n) D) in *.
    split; [apply Z.div_pos; lia|].
    apply Z.div_lt_upper_bound; [lia|].
    destruct (Z.lt_ge_cases M2 (T2 * n)) as [|Hbad]; [done|exfalso].
    assert (G1 : 2 * n * T ≤ 2 * (M * n) + D).
    { assert (2 * D * (T2 * n) ≤ 2 * D * M2)
        by (apply Z.mul_le_mono_nonneg_l; lia).
      replace (2 * D * (T2 * n)) with (2 * n * (D * T2)) in * by ring.
      rewrite HDT in *. lia. }
    assert (G2 : 2 * n * (T - M) ≤ D) by lia.
    assert (G3 : 2 * n * (2 * T - W) ≤ 2 * W * D).
    { assert (2 * n * (2 * T - W) ≤ 2 * n * (2 * W * (T - M)))
        by (apply Z.mul_le_mono_nonneg_l; lia).
      assert (2 * W * (2 * n * (T - M)) ≤ 2 * W * D)
        by (apply Z.mul_le_mono_nonneg_l; lia).
      lia. }
    assert (G4 : D * 4503599627370496 < T * n).
    { rewrite HDL. assert (M * n < T * n) by (apply Z.mul_lt_mono_pos_r; lia).
      lia. }
    assert (G5 : (2 * T - W) * 4503599627370496 * (2 * n) < W * T * (2 * n)).
    { assert (2 * n * (2 * T - W) * 4503599627370496
              ≤ 2 * W * D * 4503599627370496)
        by (apply Z.mul_le_mono_nonneg_r; lia).
      assert (2 * W * (D * 4503599627370496) < 2 * W * (T * n))
        by (apply Z.mul_lt_mono_pos_l; lia).
      lia. }
    assert (G6 : (2 * T - W) * 4503599627370496 < W * T)
      by (apply (Z.mul_lt_mono_pos_r (2 * n)); lia).
    assert (W * T < 4294967296 * T) by (apply Z.mul_lt_mono_pos_r; lia).
    lia.
Qed.

(** [Math.floor] of a rounded negative product is negative. *)
Lemma floor_product_neg m n k :
  0 < m → 0 < n → -1000 ≤ k ≤ 0 →
  Math_floor (fmul (Dbl (- m) k) (of_int n)) < 0.
Proof.
  intros Hm Hn Hk. unfold fmul, of_int, fl. cbn [dm de].
  assert (Hmn : 0 < m * n) by (apply Z.mul_pos_pos; lia).
  replace (- m * n) with (- (m * n)) by ring.
  destruct (Z.eqb_spec (- (m * n)) 0); [lia|].
  destruct (Z.ltb_spec (- (m * n)) 0); [|lia].
  cbv zeta. rewrite Z.opp_involutive, Z.add_0_r, product_rounding by lia.
  cbn [dm de].
  set (L := Z.log2 (m * n)).
  pose proof (Z.log2_spec (m * n) Hmn) as [HLlo _]. fold L in HLlo.
  pose proof (Z.log2_nonneg (m * n)) as HL0. fold L in HL0.
  set (M2 := if 0 <=? 52 - L then m * n * 2 ^ (52 - L)
             else rne (m * n) (2 ^ (L - 52))).
  assert (HM2 : 0 < M2).
  { unfold M2. destruct (Z.leb_spec 0 (52 - L)).
    - apply Z.mul_pos_pos; [done|]. apply Z.pow_pos_nonneg; lia.
    - assert (0 < 2 ^ (L - 52)) by (apply Z.pow_pos_nonneg; lia).
      assert (2 ^ (L - 52) ≤ 2 ^ L) by (apply Z.pow_le_mono_r; lia).
      pose proof (rne_lower (m * n) (2 ^ (L - 52)) ltac:(lia) ltac:(lia)).
      assert (1 ≤ (m * n) `div` 2 ^ (L - 52))
        by (apply Z.div_le_lower_bound; lia).
      lia. }
  unfold Math_floor. cbn [dm de]. fold M2.
  destruct (Z.leb_spec 0 (L + k - 52)).
  - assert (0 < 2 ^ (L + k - 52)) by (apply Z.pow_pos_nonneg; lia).
    assert (0 < M2 * 2 ^ (L + k - 52)) by (apply Z.mul_pos_pos; lia). lia.
  - assert (0 < 2 ^ (- (L + k - 52))) by (apply Z.pow_pos_nonneg; lia).
    apply Z.div_lt_upper_bound; lia.
Qed.

(** A position off the canvas lies in no column of the grid. *)
Lemma pixel_outside x W n :
  0 < W < 2 ^ 32 → 0 < n ≤ 2 ^ 32 →
  - 2 ^ 32 < x < 0 ∨ W ≤ x < 2 ^ 32 →
  ∃ c, pixel_to_index x W n = Some c ∧ (c < 0 ∨ n ≤ c).
Proof.
  intros HW Hn Hx. unfold pixel_to_index.
  destruct (Z.leb_spec W 0); [lia|]. eexists. split; [done|].
  unfold fdiv_int, fl.
  destruct (Z.eqb_spec x 0); [lia|].
  destruct Hx as [Hneg|Hbig].
  - (* left of the canvas *)
    destruct (Z.ltb_spec x 0); [|lia].
    destruct (quotient_rounding (- x) W ltac:(lia) ltac:(lia))
      as (q & -> & Hq & _ & Hpos).
    simpl. left. apply floor_product_neg; [|lia..].
    change (2 ^ 51) with 2251799813685248 in Hpos. lia.
  - (* right of the canvas *)
    destruct (Z.ltb_spec x 0); [lia|].
    destruct (quotient_rounding x W ltac:(lia) ltac:(lia))
      as (q & -> & Hq & _ & Hpos).
    set (T := 2 ^ (- q)) in *. set (M := rne (x * T) W) in *.
    change (2 ^ 51) with 2251799813685248 in Hpos.
    change (2 ^ 32) with 4294967296 in *.
    assert (HT : 0 < T) by (apply Z.pow_pos_nonneg; lia).
    assert (HMT : T ≤ M).
    { etrans; [|apply rne_lower; [apply Z.mul_nonneg_nonneg; lia|lia]].
      apply Z.div_le_lower_bound; [lia|].
      rewrite (Z.mul_comm W T), (Z.mul_comm x T).
      apply Z.mul_le_mono_nonneg_l; lia. }
    assert (HMn : T * n ≤ M * n) by (apply Z.mul_le_mono_nonneg_r; lia).
    assert (Hmn : 0 < M * n) by (apply Z.mul_pos_pos; lia).
    right. rewrite floor_product by lia. cbv zeta.
    set (L := Z.log2 (M * n)).
    pose proof (Z.log2_spec (M * n) Hmn) as [HLlo _]. fold L in HLlo.
    pose proof (Z.log2_nonneg (M * n)) as HL0. fold L in HL0.
    destruct (Z.leb_spec 0 (52 - L)).
    + fold T. apply Z.div_le_lower_bound; lia.
    + set (D := 2 ^ (L - 52)).
      assert (HD : 0 < D) by (apply Z.pow_pos_nonneg; lia).
      assert (HDL : D * 4503599627370496 = 2 ^ L).
      { unfold D. change 4503599627370496 with (2 ^ 52).
        rewrite <- Z.pow_add_r by lia. f_equal. lia. }
      pose proof (rne_lower (M * n) D ltac:(lia) HD) as Hlo.
      set (M2 := rne (M * n) D) in *.
      destruct (Z.leb_spec 0 (L + q - 52)).
      * assert (4503599627370496 ≤ (M * n) `div` D)
          by (apply Z.div_le_lower_bound; lia).
        assert (0 < 2 ^ (L + q - 52)) by (apply Z.pow_pos_nonneg; lia).
        assert (M2 * 1 ≤ M2 * 2 ^ (L + q - 52))
          by (apply Z.mul_le_mono_nonneg_l; lia).
        lia.
      * set (T2 := 2 ^ (52 - L - q)).
        assert (HT2 : 0 < T2) by (apply Z.pow_pos_nonneg; lia).
        assert (HDT : D * T2 = T).
        { unfold D, T2, T. rewrite <- Z.pow_add_r by lia. f_equal. lia. }
        apply Z.div_le_lower_bound; [lia|].
        etrans; [|exact Hlo]. apply Z.div_le_lower_bound; [lia|].
        replace (D * (T2 * n)) with (D * T2 * n) by ring. rewrite HDT. lia.
Qed.

(** X19. The bounds check of toggleCell agrees with the canvas: a
    pointer on a pixel of the canvas is over a cell of the grid (which
    toggleCell edits unless it was touched in this stroke), and a pointer
    off the canvas, on either side or above or below, edits nothing. *)
Theorem pointer_hits_grid_iff_on_canvas (random : nat → double) w p :
  0 < canvasWidth w < 2 ^ 32 → 0 < canvasHeight w < 2 ^ 32 →
  0 < cols w ≤ 2 ^ 32 → 0 < rows w ≤ 2 ^ 32 →
  - 2 ^ 32 < clientX p - rectLeft p < 2 ^ 32 →
  - 2 ^ 32 < clientY p - rectTop p < 2 ^ 32 →
  (0 ≤ clientX p - rectLeft p < canvasWidth w →
   0 ≤ clientY p - rectTop p < canvasHeight w →
   ∃ col row, pointed_cell w p = Some (col, row)
     ∧ 0 ≤ col < cols w ∧ 0 ≤ row < rows w
     ∧ (cell_key col row ∉ touchedCells w →
        toggle_target w p = Some (col, row)))
  ∧ (¬ (0 ≤ clientX p - rectLeft p < canvasWidth w
        ∧ 0 ≤ clientY p - rectTop p < canvasHeight w) →
     toggleCell random p w = Some (w, [])).
Proof.
  intros HW HH Hc Hr Hx Hy. split.
  - intros Hin_x Hin_y.
    destruct (pixel_inside _ _ (cols w) Hin_x ltac:(lia) Hc) as (col & Hcol & Hcb).
    destruct (pixel_inside _ _ (rows w) Hin_y ltac:(lia) Hr) as (row & Hrow & Hrb).
    exists col, row.
    assert (Hp : pointed_cell w p = Some (col, row))
      by (unfold pointed_cell; by rewrite Hcol, Hrow).
    split; [done|]. split; [done|]. split; [done|].
    intros Hfresh. by apply toggle_target_Some.
  - intros Hout. apply toggleCell_skip.
    destruct (toggle_target w p) as [[col row]|] eqn:Ht; [exfalso|done].
    apply toggle_target_Some in Ht as (Hp & [Hcb Hrb] & _).
    unfold pointed_cell in Hp.
    destruct (pixel_to_index (clientX p - rectLeft p) _ _) as [c|] eqn:Hcol;
      [|done].
    destruct (pixel_to_index (clientY p - rectTop p) _ _) as [r|] eqn:Hrow;
      [|done].
    simpl in Hp. injection Hp as -> ->.
    destruct (decide (0 ≤ clientX p - rectLeft p < canvasWidth w)) as [Hxin|Hxout].
    + destruct (decide (0 ≤ clientY p - rectTop p < canvasHeight w)) as [Hyin|Hyout];
        [by apply Hout|].
      destruct (pixel_outside (clientY p - rectTop p) (canvasHeight w) (rows w))
        as (r' & Hr' & Hbad); [lia..|].
      rewrite Hrow in Hr'. injection Hr' as <-. lia.
    + destruct (pixel_outside (clientX p - rectLeft p) (canvasWidth w) (cols w))
        as (c' & Hc' & Hbad); [lia..|].
      rewrite Hcol in Hc'. injection Hc' as <-. lia.
Qed.

(** ** The further properties on sample inputs *)

Lemma resizeCanvas_reseeds_witness :
  ∃ w', resizeCanvas sample_random 25 19 sample_world = Some w'
    ∧ cols w' = 2 ∧ rows w' = 1 ∧ draws w' = 4%nat.
Proof.
  destruct (resizeCanvas_reseeds sample_random sample_world 25 19)
    as (w' & Hres & _ & _ & _ & Hc & Hr & _ & Hd & _);
    [simpl; lia|lia|lia|].
  exists w'. split; [exact Hres|]. split; [exact Hc|]. split; [exact Hr|].
  rewrite Hd, Hc, Hr. reflexivity.
Defined.

Lemma startGameOfLife_negative_cellSize_witness :
  startGameOfLife sample_random 100 100 (Given (-5)) = None.
Proof.
  destruct (startGameOfLife_negative_cellSize sample_random 100 100 (-5))
    as [_ Hthrow]; [lia|lia|lia|].
  apply Hthrow. lia.
Defined.

Lemma program_never_throws_witness :
  ∃ w0 w tr, startGameOfLife sample_random 40 40 Absent = Some w0
    ∧ run sample_random sample_events w0 = Some (w, tr)
    ∧ wf_world w = true.
Proof.
  apply (program_never_throws sample_random 40 40 Absent sample_events);
    [simpl; lia|lia|lia|reflexivity].
Defined.

Lemma reachable_cells_ok_witness :
  let c := default dead_cell (cellAt (grid sample_end.1) 1 1) in
  (alive c = 0 ∨ alive c = 1) ∧ 0 ≤ fade c ≤ 10 ∧ (alive c = 1 → fade c = 0).
Proof.
  apply (reachable_cells_ok sample_random 40 40 Absent sample_events
           sample_start sample_end.1 sample_end.2 1 1);
    [simpl; lia|lia|lia|reflexivity|vm_compute; reflexivity
    |vm_compute; reflexivity|vm_compute; reflexivity].
Defined.

Lemma degenerate_grid_noop_witness :
  updateGrid sample_random empty_world = Some empty_world
  ∧ drawGrid empty_world = Some (empty_world, [])
  ∧ ∀ p, toggleCell sample_random p empty_world = Some (empty_world, []).
Proof.
  apply (degenerate_grid_noop sample_random empty_world). left. simpl. lia.
Defined.

Lemma toroidal_neighbors_distinct_witness :
  NoDup (toroidal_neighbors 4 4 0 0)
  ∧ ((0, 0) ∉ toroidal_neighbors 4 4 0 0)
  ∧ length (toroidal_neighbors 4 4 0 0) = 8%nat.
Proof.
  apply (toroidal_neighbors_distinct 4 4 0 0); lia.
Defined.

Lemma countNeighbors_range_witness :
  ∃ n, countNeighbors sample_grid 4 4 1 1 = Some n ∧ 0 ≤ n ≤ 8.
Proof.
  apply (countNeighbors_range sample_grid 4 4 1 1); [reflexivity|reflexivity|lia|lia].
Defined.

Lemma updateGrid_draw_order_witness :
  ∃ w', updateGrid sample_random sample_world = Some w' ∧ draws w' = 3%nat.
Proof.
  destruct (updateGrid_draw_order sample_random sample_world)
    as (w' & Hup & Hd & _); [reflexivity|].
  exists w'. split; [exact Hup|]. rewrite Hd. reflexivity.
Defined.

Lemma updateGrid_random_independent_witness :
  ∃ w1 w2, updateGrid sample_random sample_world = Some w1
    ∧ updateGrid (λ _, Dbl 0 (-1)) sample_world = Some w2
    ∧ draws w1 = draws w2.
Proof.
  destruct (updateGrid_random_independent sample_random (λ _, Dbl 0 (-1)) sample_world)
    as (w1 & w2 & H1 & H2 & Hd & _); [reflexivity|].
  exists w1, w2. split; [exact H1|]. split; [exact H2|exact Hd].
Defined.


Lemma drawGrid_paints_witness :
  ∃ w', drawGrid sample_world
        = Some (w', omap (glyph_of (grid sample_world))
                      (positions (cols sample_world) (rows sample_world))).
Proof.
  apply (drawGrid_paints sample_world). reflexivity.
Defined.

Lemma draw_passes_fade_formula_witness :
  ∃ w', draw_passes 7 sample_world = Some w'
    ∧ cellAt (grid w') 3 3 = Some (mkCell 0 "hsl(30, 100%, 70%)" 0).
Proof.
  destruct (draw_passes_fade_formula sample_world 7) as (w' & Hp & Hcells & _);
    [reflexivity|].
  exists w'. split; [exact Hp|].
  apply (Hcells 3 3 fading_cell); [simpl; lia|simpl; lia|reflexivity].
Defined.


Lemma click_twice_restores_liveness_witness :
  let p := pointer_at 15 15 in
  ∃ w', run sample_random [MouseDown p; MouseUp; MouseDown p; MouseUp] sample_world
        = Some (w', if alive live_cell =? 0
                    then [Edited 1 1 Add; Edited 1 1 Remove]
                    else [Edited 1 1 Remove; Edited 1 1 Add])
    ∧ cellAt (grid w') 1 1
      = Some (if alive live_cell =? 0
              then mkCell 0 (getRandomColor sample_random (draws sample_world)) 10
              else mkCell 1 (getRandomColor sample_random (draws sample_world)) 0)
    ∧ isDragging w' = false ∧ dragAction w' = None ∧ touchedCells w' = ∅.
Proof.
  intros p.
  apply (click_twice_restores_liveness sample_random sample_world p 1 1 live_cell);
    [reflexivity|reflexivity|reflexivity|simpl; lia|simpl; lia|reflexivity].
Defined.

Lemma no_press_no_edit_witness :
  edited_cells idle_end.2 = [] ∧ isDragging idle_end.1 = false.
Proof.
  apply (no_press_no_edit sample_random idle_events sample_world
           idle_end.1 idle_end.2);
    [reflexivity|reflexivity|vm_compute; reflexivity].
Defined.

Lemma resize_keeps_stroke_witness :
  isDragging resized_world = true ∧ dragAction resized_world = Some Remove
  ∧ cell_key 1 1 ∈ touchedCells resized_world
  ∧ handle sample_random (MouseMove (pointer_at 15 15)) resized_world
    = Some (resized_world, []).
Proof.
  apply (resize_keeps_stroke sample_random (pointer_at 15 15) 40 40
           (pointer_at 15 15) sample_world pressed_world resized_world 1 1 Remove);
    vm_compute; reflexivity.
Defined.


Lemma pointer_hits_grid_iff_on_canvas_witness :
  let p := pointer_at 15 41 in
  toggleCell sample_random p sample_world = Some (sample_world, []).
Proof.
  intros p.
  destruct (pointer_hits_grid_iff_on_canvas sample_random sample_world p)
    as [_ Hout]; [simpl; lia..|].
  apply Hout. simpl. lia.
Defined.
